(** * REST API Explorer: a model of the request controller and its helpers

    The development follows the TypeScript sources:
    - [src/types/ApiRequest.ts]   the history record,
    - [src/utils/helpers.ts]      [isValidUrl], [formatResponse], [truncateUrl],
    - [src/components/*.tsx]      what the components render and which
                                  gestures they accept,
    - [src/App.tsx]               the five state hooks and their handlers.

    JavaScript strings are sequences of UTF-16 code units; numbers that the
    program uses as integers ([Date.now()], lengths, the truncation budget)
    are modelled in [Z].  The services of the JavaScript platform the
    program calls ([JSON.parse], [JSON.stringify], [new URL]) are the
    fields of the class [Platform]; the module [Ref] gives an executable
    instance, on which the sample sessions of [Scenario] run.

    The application is event driven.  [dispatch] executes one event, a
    gesture of the user or the completion of a pending call of [fetch],
    and [run] a sequence of them from the initial state. *)

From Stdlib Require Strings.String Strings.Ascii.
From Stdlib Require Import Sorting.Sorted.
From stdpp Require Import base tactics option list numbers sorting.
Import Stdlib.Strings.String.StringSyntax.
Delimit Scope string_scope with string.

Local Open Scope Z_scope.
Local Open Scope list_scope.

(** ** JavaScript strings *)

Abbreviation code_unit := N (only parsing).
Abbreviation jsstring := (list N) (only parsing).

(** The string literal of the source text, as code units (the literals of
    the program are all ASCII). *)
Definition js (s : String.string) : jsstring :=
  Ascii.N_of_ascii <$> String.list_ascii_of_string s.
Arguments js s%_string.

(** [s.length] *)
Definition str_length (s : jsstring) : Z := Z.of_nat (length s).

(** [s.substring(start, end)]: both indices are clamped to [0, s.length]
    and swapped when [start > end]. *)
Definition substring (s : jsstring) (start end_ : Z) : jsstring :=
  let len := str_length s in
  let a := Z.min (Z.max start 0) len in
  let b := Z.min (Z.max end_ 0) len in
  let from := Z.min a b in
  let to := Z.max a b in
  take (Z.to_nat (to - from)) (drop (Z.to_nat from) s).

(** ** The platform *)

(** What a [catch] clause can receive: an instance of [Error], which has a
    [message], or any other thrown value. *)
Inductive Thrown :=
  | ErrorInstance (message : jsstring)
  | OtherValue.

Class Platform := {
  (** the values [JSON.parse] produces *)
  JSValue : Type;
  (** [JSON.parse(text)]; [None] when it throws a [SyntaxError] *)
  JSON_parse : jsstring -> option JSValue;
  (** [JSON.stringify(value, null, space)] on a value of [JSON.parse] *)
  JSON_stringify : JSValue -> N -> jsstring;
  (** the message of the [SyntaxError] raised for a text that is not JSON *)
  SyntaxError_message : jsstring -> jsstring;
  (** [new URL(s)]; [None] when the constructor throws a [TypeError] *)
  URL : Type;
  new_URL : jsstring -> option URL
}.

(** The law of the JSON services that display formatting relies on: the
    text [JSON.stringify] writes for a parsed value is itself JSON, and
    parsing it gives a value that is written the same way. *)
Class JSONLaws (P : Platform) : Prop :=
  stringify_parse_stable :
    forall (text : jsstring) (v : JSValue) (space : N),
      JSON_parse text = Some v ->
      exists v', JSON_parse (JSON_stringify v space) = Some v' /\
                 JSON_stringify v' space = JSON_stringify v space.

(** ** src/types/ApiRequest.ts *)

Inductive RequestStatus := req_success | req_error.

Module ApiRequest.
Record t := mk {
  id : Z;
  url : jsstring;
  response : jsstring;
  status : RequestStatus;
  timestamp : jsstring
}.
End ApiRequest.
Abbreviation ApiRequest := ApiRequest.t.

(** ['idle' | 'loading' | 'success' | 'error'] *)
Inductive Status := idle | loading | success | error.

(** ['success' | 'error'] is a subtype of the status of the application. *)
Definition Status_of_request (s : RequestStatus) : Status :=
  match s with req_success => success | req_error => error end.

#[global] Instance Status_eq_dec : EqDecision Status.
Proof. solve_decision. Defined.
#[global] Instance RequestStatus_eq_dec : EqDecision RequestStatus.
Proof. solve_decision. Defined.
#[global] Instance ApiRequest_eq_dec : EqDecision ApiRequest.
Proof. solve_decision. Defined.
#[global] Instance Thrown_eq_dec : EqDecision Thrown.
Proof. solve_decision. Defined.

(** ** src/utils/helpers.ts *)

Section Helpers.
Context {P : Platform}.

Definition isValidUrl (urlString : jsstring) : bool :=
  match new_URL urlString with
  | Some _ => true
  | None => false
  end.

Definition formatResponse (response : jsstring) (status : Status) : jsstring :=
  if bool_decide (status = success) || bool_decide (status = error) then
    match JSON_parse response with
    | Some parsed => JSON_stringify parsed 2
    | None => response
    end
  else response.

End Helpers.

Definition truncateUrl (url : jsstring) (maxLength : Z) : jsstring :=
  if str_length url <=? maxLength then url
  else substring url 0 (maxLength - 3) ++ js "...".

(** The default value of the second parameter of [truncateUrl]. *)
Definition truncateUrl_default : Z := 40.

(** ** The network *)

(** Reading the body of a response either delivers its text or fails. *)
Inductive BodyRead :=
  | BodyText (text : jsstring)
  | BodyFailed (e : Thrown).

Record Response := {
  http_status : Z;
  body : BodyRead
}.

(** [res.ok] *)
Definition Response_ok (res : Response) : bool :=
  (200 <=? http_status res) && (http_status res <=? 299).

(** How the promise of [fetch(url)] settles.  It is fulfilled for every
    HTTP status and rejected only when no response was obtained. *)
Inductive Settled :=
  | Rejected (e : Thrown)
  | Fulfilled (res : Response).

Section Controller.
Context {P : Platform}.

(** [await res.json()]: the value, or what the rejection throws. *)
Definition Response_json (res : Response) : Thrown + JSValue :=
  match body res with
  | BodyFailed e => inl e
  | BodyText text =>
      match JSON_parse text with
      | Some data => inr data
      | None => inl (ErrorInstance (SyntaxError_message text))
      end
  end.

(** ** src/App.tsx: the state hooks *)

Record State := {
  url : jsstring;
  response : jsstring;
  status : Status;
  history : list ApiRequest;
  currentRequestId : option Z
}.

Definition initial_state : State := {|
  url := js "";
  response := js "No data yet. Enter an API endpoint and click Fetch.";
  status := idle;
  history := [];
  currentRequestId := None
|}.

Definition setUrl (v : jsstring) (st : State) : State :=
  {| url := v; response := response st; status := status st;
     history := history st; currentRequestId := currentRequestId st |}.
Definition setResponse (v : jsstring) (st : State) : State :=
  {| url := url st; response := v; status := status st;
     history := history st; currentRequestId := currentRequestId st |}.
Definition setStatus (v : Status) (st : State) : State :=
  {| url := url st; response := response st; status := v;
     history := history st; currentRequestId := currentRequestId st |}.
Definition setHistory (v : list ApiRequest) (st : State) : State :=
  {| url := url st; response := response st; status := status st;
     history := v; currentRequestId := currentRequestId st |}.
Definition setCurrentRequestId (v : option Z) (st : State) : State :=
  {| url := url st; response := response st; status := status st;
     history := history st; currentRequestId := v |}.

(** ** [handleFetch]

    The function is asynchronous.  Its body up to the first [await] runs
    in the state of the render that installed it; the rest runs when the
    promises of [fetch] and [res.json()] have settled, and still sees the
    constants [url] and [history] of that first render.  No state is read
    or written between the two [await]s, so they are one suspension. *)

Record Closure := {
  c_url : jsstring;
  c_history : list ApiRequest
}.

(** Lines 17-20: the guard and the two updates before [fetch]. The second
    component is the suspended call, when a request was issued. *)
Definition handleFetch_start (st : State) : State * option Closure :=
  if bool_decide (url st = []) || negb (isValidUrl (url st)) then (st, None)
  else
    (setResponse (js "Fetching data...") (setStatus loading st),
     Some {| c_url := url st; c_history := history st |}).

(** The [try] block up to and including [await res.json()]. *)
Definition awaited (r : Settled) : Thrown + JSValue :=
  match r with
  | Rejected e => inl e
  | Fulfilled res => Response_json res
  end.

(** The ways in which the [try] block raises [e]: the promise of [fetch] is
    rejected (the network call fails), the body cannot be read, or its text
    is not JSON and [res.json()] rejects with a [SyntaxError]. *)
Inductive raises : Settled -> Thrown -> Prop :=
  | raises_fetch e : raises (Rejected e) e
  | raises_body res e : body res = BodyFailed e -> raises (Fulfilled res) e
  | raises_json res text :
      body res = BodyText text -> JSON_parse text = None ->
      raises (Fulfilled res) (ErrorInstance (SyntaxError_message text)).

(** Lines 25-57: the continuation, run in the state [st] of the moment
    the promises settle; [now] is what [Date.now()] returns and [time]
    what [new Date().toLocaleTimeString()] returns. *)
Definition handleFetch_settle (c : Closure) (r : Settled)
    (now : Z) (time : jsstring) (st : State) : State :=
  match awaited r with
  | inr data =>
      let responseText := JSON_stringify data 2 in
      let st := setResponse responseText st in
      let st := setStatus success st in
      let newRequest :=
        ApiRequest.mk now (c_url c) responseText req_success time in
      let st := setHistory (c_history c ++ [newRequest]) st in
      setCurrentRequestId (Some (ApiRequest.id newRequest)) st
  | inl error_ =>
      let errorText :=
        js "Error: " ++
        match error_ with
        | ErrorInstance message => message
        | OtherValue => js "Unknown error"
        end in
      let st := setResponse errorText st in
      let st := setStatus error st in
      let newRequest :=
        ApiRequest.mk now (c_url c) errorText req_error time in
      let st := setHistory (c_history c ++ [newRequest]) st in
      setCurrentRequestId (Some (ApiRequest.id newRequest)) st
  end.

Definition handleSelectRequest (request : ApiRequest) (st : State) : State :=
  let st := setUrl (ApiRequest.url request) st in
  let st := setResponse (ApiRequest.response request) st in
  let st := setStatus (Status_of_request (ApiRequest.status request)) st in
  setCurrentRequestId (Some (ApiRequest.id request)) st.

Definition handleClearHistory (st : State) : State :=
  let st := setHistory [] st in
  let st := setCurrentRequestId None st in
  let st := setResponse
              (js "History cleared. Enter an API endpoint and click Fetch.") st in
  setStatus idle st.

(** ** What the components render *)

(** src/components/InputField.tsx *)
Record InputFieldView := {
  input_disabled : bool;
  input_invalid : bool;
  button_disabled : bool;
  button_label : jsstring
}.

Definition InputField (value : jsstring) (disabled : bool) : InputFieldView :=
  let isValid := bool_decide (value = []) || isValidUrl value in
  {| input_disabled := disabled;
     input_invalid := negb isValid;
     button_disabled := disabled || negb isValid;
     button_label := if disabled then js "Loading..." else js "Fetch" |}.

(** [handleKeyPress]: whether [onSubmit] is called for this key. *)
Definition handleKeyPress (key : jsstring) (disabled : bool) : bool :=
  bool_decide (key = js "Enter") && negb disabled.

(** src/components/HistoryItem.tsx.  The property [onClick] is a closure
    that calls [onSelectRequest] with a request; it is modelled by that
    request. *)
Record HistoryItemView := {
  item_active : bool;
  item_onClick : ApiRequest;
  item_status : RequestStatus;
  item_url : jsstring;
  item_timestamp : jsstring
}.

Definition HistoryItem (request : ApiRequest) (onClick : ApiRequest)
    (isActive : bool) : HistoryItemView :=
  {| item_active := isActive;
     item_onClick := onClick;
     item_status := ApiRequest.status request;
     item_url := truncateUrl (ApiRequest.url request) 35;
     item_timestamp := ApiRequest.timestamp request |}.

(** src/components/HistoryPanel.tsx: with an empty history the panel has
    neither items nor the Clear button. *)
Record HistoryPanelView := {
  clear_button : bool;
  items : list HistoryItemView
}.

Definition HistoryPanel (history : list ApiRequest)
    (currentRequestId : option Z) : HistoryPanelView :=
  if bool_decide (length history = 0%nat) then
    {| clear_button := false; items := [] |}
  else
    {| clear_button := true;
       items := (fun request =>
                   HistoryItem request request
                     (bool_decide (Some (ApiRequest.id request) = currentRequestId)))
                <$> history |}.

(** src/components/ResponseDisplay.tsx: the text of the response box. *)
Definition ResponseDisplay (response : jsstring) (status : Status) : jsstring :=
  formatResponse response status.

(** The [disabled] property [App] passes to [InputField]. *)
Definition App_disabled (st : State) : bool :=
  bool_decide (status st = loading).

(** ** The running application

    The state hooks together with the calls of [handleFetch] that are
    suspended at their [await], oldest first. *)
Record App := {
  state : State;
  inflight : list Closure
}.

Definition initial : App := {| state := initial_state; inflight := [] |}.

(** [onSubmit] *)
Definition submit (app : App) : App :=
  match handleFetch_start (state app) with
  | (st, Some c) => {| state := st; inflight := inflight app ++ [c] |}
  | (st, None) => {| state := st; inflight := inflight app |}
  end.

Inductive Event :=
  | Change (value : jsstring)        (* typing in the input *)
  | KeyDown (key : jsstring)         (* a key pressed in the input *)
  | ClickFetch                       (* the Fetch button *)
  | ClickItem (i : nat)              (* the i-th item of the history panel *)
  | ClickClear                       (* the Clear button *)
  | Settle (k : nat) (r : Settled) (now : Z) (time : jsstring).
                                     (* the k-th suspended call resumes *)

(** One event.  [None]: the last render offers no such gesture (the
    control is disabled or not rendered), or no such call is suspended. *)
Definition dispatch (app : App) (ev : Event) : option App :=
  let st := state app in
  let field := InputField (url st) (App_disabled st) in
  match ev with
  | Change value =>
      if input_disabled field then None
      else Some {| state := setUrl value st; inflight := inflight app |}
  | KeyDown key =>
      if input_disabled field then None
      else if handleKeyPress key (App_disabled st) then Some (submit app)
      else Some app
  | ClickFetch =>
      if button_disabled field then None else Some (submit app)
  | ClickItem i =>
      match items (HistoryPanel (history st) (currentRequestId st)) !! i with
      | Some item =>
          Some {| state := handleSelectRequest (item_onClick item) st;
                  inflight := inflight app |}
      | None => None
      end
  | ClickClear =>
      if clear_button (HistoryPanel (history st) (currentRequestId st)) then
        Some {| state := handleClearHistory st; inflight := inflight app |}
      else None
  | Settle k r now time =>
      match inflight app !! k with
      | Some c =>
          Some {| state := handleFetch_settle c r now time st;
                  inflight := delete k (inflight app) |}
      | None => None
      end
  end.

Fixpoint run (app : App) (evs : list Event) : option App :=
  match evs with
  | [] => Some app
  | ev :: evs =>
      match dispatch app ev with
      | Some app' => run app' evs
      | None => None
      end
  end.

(** Whether a submission can begin: some gesture the render offers
    calls [onSubmit]. *)
Definition can_submit (app : App) : bool :=
  let st := state app in
  let field := InputField (url st) (App_disabled st) in
  negb (button_disabled field) ||
  (negb (input_disabled field) && handleKeyPress (js "Enter") (App_disabled st)).

(** ** Observations of a run *)

(** The record the continuation of [handleFetch] builds. *)
Definition newRequest_of (c : Closure) (r : Settled) (now : Z) (time : jsstring)
    : ApiRequest :=
  match awaited r with
  | inr data =>
      ApiRequest.mk now (c_url c) (JSON_stringify data 2) req_success time
  | inl error_ =>
      ApiRequest.mk now (c_url c)
        (js "Error: " ++
         match error_ with
         | ErrorInstance message => message
         | OtherValue => js "Unknown error"
         end)
        req_error time
  end.

(** The record an event creates: a call that resumes builds one. *)
Definition created (app : App) (ev : Event) : list ApiRequest :=
  match ev with
  | Settle k r now time =>
      match inflight app !! k with
      | Some c => [newRequest_of c r now time]
      | None => []
      end
  | _ => []
  end.

(** All records created along a run, in the order of their creation. *)
Fixpoint records_created (app : App) (evs : list Event) : list ApiRequest :=
  match evs with
  | [] => []
  | ev :: evs =>
      match dispatch app ev with
      | Some app' => created app ev ++ records_created app' evs
      | None => []
      end
  end.

(** What [Date.now()] returned along a run, in the order of the calls. *)
Fixpoint clock_readings (evs : list Event) : list Z :=
  match evs with
  | [] => []
  | Settle _ _ now _ :: evs => now :: clock_readings evs
  | _ :: evs => clock_readings evs
  end.

(** No item of the history is clicked and the history is not cleared
    while a call is suspended. *)
Fixpoint undisturbed (app : App) (evs : list Event) : bool :=
  match evs with
  | [] => true
  | ev :: evs =>
      match ev with
      | ClickItem _ | ClickClear => bool_decide (inflight app = [])
      | _ => true
      end
      && match dispatch app ev with
         | Some app' => undisturbed app' evs
         | None => true
         end
  end.

(** At most one call is suspended, and then the status is [loading]. *)
Definition single_flight (app : App) : Prop :=
  inflight app = [] \/
  (status (state app) = loading /\ length (inflight app) = 1%nat).

(** The history, and the history every suspended call has captured, are
    subsequences of the log [L] of the records created so far. *)
Definition logged (app : App) (L : list ApiRequest) : Prop :=
  history (state app) `sublist_of` L /\
  Forall (fun c => c_history c `sublist_of` L) (inflight app).

End Controller.

(** * Sessions: valid records, the selection, and the steps of a run *)

Section Session.
Context {P : Platform}.

(** ** The records of a session *)

(** The text of a success record: a parsed body serialised again. *)
Definition success_text (t : jsstring) : Prop :=
  exists text data, JSON_parse text = Some data /\ t = JSON_stringify data 2.

(** The text of an error record. *)
Definition error_text (t : jsstring) : Prop :=
  exists message, t = js "Error: " ++ message.

(** What [handleFetch] records: a url that passed its guard, and a text
    that fits the outcome. *)
Definition record_valid (r : ApiRequest) : Prop :=
  ApiRequest.url r <> [] /\ isValidUrl (ApiRequest.url r) = true /\
  match ApiRequest.status r with
  | req_success => success_text (ApiRequest.response r)
  | req_error => error_text (ApiRequest.response r)
  end.

Definition closure_valid (c : Closure) : Prop :=
  c_url c <> [] /\ isValidUrl (c_url c) = true /\
  Forall record_valid (c_history c).

(** The text on display fits the status on display. *)
Definition display_valid (st : State) : Prop :=
  match status st with
  | success => success_text (response st)
  | error => error_text (response st)
  | idle | loading => True
  end.

Definition session_valid (app : App) : Prop :=
  Forall record_valid (history (state app)) /\
  Forall closure_valid (inflight app) /\
  display_valid (state app).

(** The selection is empty or refers to a record of the history. *)
Definition selection_valid (st : State) : Prop :=
  currentRequestId st = None \/
  exists r, r ∈ history st /\ currentRequestId st = Some (ApiRequest.id r).

(** ** The steps of the application

    What an event does when the render offers it, case by case. *)
Inductive step : App -> Event -> App -> Prop :=
  | step_change app value :
      status (state app) <> loading ->
      step app (Change value)
        {| state := setUrl value (state app); inflight := inflight app |}
  | step_other_key app key :
      status (state app) <> loading -> key <> js "Enter" ->
      step app (KeyDown key) app
  | step_rejected app ev :
      ev = ClickFetch \/ ev = KeyDown (js "Enter") ->
      status (state app) <> loading ->
      url (state app) = [] \/
        (ev = KeyDown (js "Enter") /\ isValidUrl (url (state app)) = false) ->
      step app ev app
  | step_start app ev :
      ev = ClickFetch \/ ev = KeyDown (js "Enter") ->
      status (state app) <> loading ->
      url (state app) <> [] -> isValidUrl (url (state app)) = true ->
      step app ev
        {| state := setResponse (js "Fetching data...")
                      (setStatus loading (state app));
           inflight := inflight app ++
             [{| c_url := url (state app); c_history := history (state app) |}] |}
  | step_select app i request :
      history (state app) !! i = Some request ->
      step app (ClickItem i)
        {| state := handleSelectRequest request (state app);
           inflight := inflight app |}
  | step_clear app :
      history (state app) <> [] ->
      step app ClickClear
        {| state := handleClearHistory (state app); inflight := inflight app |}
  | step_settle app k c r now time :
      inflight app !! k = Some c ->
      step app (Settle k r now time)
        {| state := handleFetch_settle c r now time (state app);
           inflight := delete k (inflight app) |}.

(** One call is pending, and it has captured the url and the history on
    display; or none is. *)
Definition in_step (app : App) : Prop :=
  inflight app = [] \/
  (status (state app) = loading /\
   inflight app =
     [{| c_url := url (state app); c_history := history (state app) |}]).

(** The text on display fits the status on display, also when it is a
    fixed message. *)
Definition text_fits_status (st : State) : Prop :=
  match status st with
  | idle =>
      response st = js "No data yet. Enter an API endpoint and click Fetch." \/
      response st = js "History cleared. Enter an API endpoint and click Fetch."
  | loading => response st = js "Fetching data..."
  | success => success_text (response st)
  | error => error_text (response st)
  end.

End Session.

(** * A reference platform

    An executable instance of [Platform]: the JSON grammar of ECMA-404 as
    [JSON.parse] reads it, with the object that a literal with repeated or
    numeric keys builds; the serialisation algorithm of [JSON.stringify]
    (ECMA-262, SerializeJSONProperty, QuoteJSONString); and a syntactic
    check of absolute URLs.  Two things are simpler than in a browser.  A
    number is kept as its literal and written back as it was read, where
    JavaScript converts it to a double and writes the shortest decimal of
    that double; the two agree on the literals that are in that form
    already, such as [1] or [-2.5].  [new URL] is approximated by the
    scheme stage of the URL parser followed by a test that a special
    scheme has a host; it agrees with the URL parser on the urls of the
    sample sessions. *)

Module Ref.

Local Open Scope N_scope.

#[local] Unset Elimination Schemes.
Inductive value :=
  | Null
  | Bool (b : bool)
  | Number (literal : jsstring)
  | String_ (s : jsstring)
  | Array (elements : list value)
  | Object (members : list (jsstring * value)).
#[local] Set Elimination Schemes.

(** *** Characters *)

Definition is_ws (c : N) : bool :=
  (c =? 32) || (c =? 9) || (c =? 10) || (c =? 13).
Definition is_digit (c : N) : bool := (48 <=? c) && (c <=? 57).
Definition is_digit19 (c : N) : bool := (49 <=? c) && (c <=? 57).
Definition is_alpha (c : N) : bool :=
  ((65 <=? c) && (c <=? 90)) || ((97 <=? c) && (c <=? 122)).
Definition is_high_surrogate (c : N) : bool := (55296 <=? c) && (c <=? 56319).
Definition is_low_surrogate (c : N) : bool := (56320 <=? c) && (c <=? 57343).

Fixpoint skip_ws (s : jsstring) : jsstring :=
  match s with
  | c :: r => if is_ws c then skip_ws r else s
  | [] => []
  end.

(** The longest prefix of characters that satisfy [p], and the rest. *)
Fixpoint span (p : N -> bool) (s : jsstring) : jsstring * jsstring :=
  match s with
  | c :: r => if p c then let '(a, b) := span p r in (c :: a, b) else ([], s)
  | [] => ([], [])
  end.

(** [s] without the prefix [lit], when it starts with it. *)
Fixpoint strip_prefix (lit s : jsstring) : option jsstring :=
  match lit, s with
  | [], _ => Some s
  | a :: lit, c :: s => if a =? c then strip_prefix lit s else None
  | _ :: _, [] => None
  end.

(** *** Strings *)

Definition hex_digit (d : N) : N := if d <? 10 then 48 + d else 87 + d.

Definition hex_value (c : N) : option N :=
  if is_digit c then Some (c - 48)
  else if (97 <=? c) && (c <=? 102) then Some (c - 87)
  else if (65 <=? c) && (c <=? 70) then Some (c - 55)
  else None.

(** UnicodeEscape: a backslash, [u] and four lowercase hexadecimal digits *)
Definition unicode_escape (c : N) : jsstring :=
  [92; 117; hex_digit (c / 4096 mod 16); hex_digit (c / 256 mod 16);
   hex_digit (c / 16 mod 16); hex_digit (c mod 16)].

Definition hex4 (h1 h2 h3 h4 : N) : option N :=
  a ← hex_value h1; b ← hex_value h2; c ← hex_value h3; d ← hex_value h4;
  Some (((a * 16 + b) * 16 + c) * 16 + d).

(** The code units of QuoteJSONString for a code unit that is not a
    surrogate. *)
Definition quote_unit (c : N) : jsstring :=
  if c =? 8 then [92; 98]
  else if c =? 9 then [92; 116]
  else if c =? 10 then [92; 110]
  else if c =? 12 then [92; 102]
  else if c =? 13 then [92; 114]
  else if c =? 34 then [92; 34]
  else if c =? 92 then [92; 92]
  else if c <? 32 then unicode_escape c
  else [c].

(** A surrogate pair is written as it is, a lone surrogate escaped. *)
Fixpoint quote_body (s : jsstring) : jsstring :=
  match s with
  | [] => []
  | c :: r =>
      if is_high_surrogate c then
        match r with
        | d :: r' =>
            if is_low_surrogate d then c :: d :: quote_body r'
            else unicode_escape c ++ quote_body r
        | [] => unicode_escape c
        end
      else if is_low_surrogate c then unicode_escape c ++ quote_body r
      else quote_unit c ++ quote_body r
  end.

(** QuoteJSONString *)
Definition quote (s : jsstring) : jsstring := 34 :: quote_body s ++ [34].

(** The character a single-character escape stands for. *)
Definition unescape (e : N) : option N :=
  if e =? 34 then Some 34
  else if e =? 92 then Some 92
  else if e =? 47 then Some 47
  else if e =? 98 then Some 8
  else if e =? 102 then Some 12
  else if e =? 110 then Some 10
  else if e =? 114 then Some 13
  else if e =? 116 then Some 9
  else None.

(** A string after its opening quote: the characters up to the closing
    quote, and what follows it. *)
Fixpoint parse_string_body (s : jsstring) : option (jsstring * jsstring) :=
  match s with
  | [] => None
  | c :: r =>
      if c =? 34 then Some ([], r)
      else if c =? 92 then
        match r with
        | [] => None
        | e :: r1 =>
            if e =? 117 then
              match r1 with
              | h1 :: h2 :: h3 :: h4 :: r2 =>
                  u ← hex4 h1 h2 h3 h4;
                  '(str, rest) ← parse_string_body r2;
                  Some (u :: str, rest)
              | _ => None
              end
            else
              u ← unescape e;
              '(str, rest) ← parse_string_body r1;
              Some (u :: str, rest)
        end
      else if c <? 32 then None
      else
        '(str, rest) ← parse_string_body r;
        Some (c :: str, rest)
  end.

(** *** Numbers *)

(** The integer part: [0], or a digit from 1 to 9 and more digits. *)
Definition scan_int (s : jsstring) : option (jsstring * jsstring) :=
  match s with
  | c :: r =>
      if c =? 48 then Some ([48], r)
      else if is_digit19 c then let '(ds, r') := span is_digit r in Some (c :: ds, r')
      else None
  | [] => None
  end.

(** An optional fraction: a point and at least one digit. *)
Definition scan_frac (s : jsstring) : option (jsstring * jsstring) :=
  match s with
  | c :: r =>
      if c =? 46 then
        match span is_digit r with
        | ([], _) => None
        | (ds, r') => Some (46 :: ds, r')
        end
      else Some ([], s)
  | [] => Some ([], [])
  end.

(** An optional exponent: [e] or [E], an optional sign, at least one digit. *)
Definition scan_exp (s : jsstring) : option (jsstring * jsstring) :=
  match s with
  | c :: r =>
      if (c =? 101) || (c =? 69) then
        let '(sign, r0) :=
          match r with
          | g :: r0 => if (g =? 43) || (g =? 45) then ([g], r0) else ([], r)
          | [] => ([], r)
          end in
        match span is_digit r0 with
        | ([], _) => None
        | (ds, r') => Some (c :: sign ++ ds, r')
        end
      else Some ([], s)
  | [] => Some ([], [])
  end.

(** A number literal at the head of [s], and what follows it. *)
Definition scan_number (s : jsstring) : option (jsstring * jsstring) :=
  let '(sign, s0) :=
    match s with
    | c :: r => if c =? 45 then ([45], r) else ([], s)
    | [] => ([], s)
    end in
  '(i, s1) ← scan_int s0;
  '(f, s2) ← scan_frac s1;
  '(e, s3) ← scan_exp s2;
  Some (sign ++ i ++ f ++ e, s3).

(** *** Objects *)

(** The value of a string of decimal digits. *)
Definition digits_value (ds : jsstring) : N :=
  foldl (fun n d => 10 * n + (d - 48)) 0 ds.

(** The array index a property key denotes: the canonical numeric
    strings of the integers from 0 to 2^32 - 2. *)
Definition array_index (k : jsstring) : option N :=
  match k with
  | [] => None
  | c :: r =>
      if (c =? 48) && bool_decide (r = []) then Some 0
      else if is_digit19 c && forallb is_digit r then
        (if digits_value k <? 4294967295 then Some (digits_value k) else None)
      else None
  end.

(** The order of own property keys: array indices in ascending order,
    then the other keys in the order of their creation. *)
Definition key_before (k k' : jsstring) : bool :=
  match array_index k, array_index k' with
  | Some n, Some n' => n <? n'
  | Some _, None => true
  | None, _ => false
  end.

Fixpoint replace_property (o : list (jsstring * value)) (k : jsstring) (v : value)
    : list (jsstring * value) :=
  match o with
  | [] => []
  | (k', v') :: o' =>
      if bool_decide (k' = k) then (k, v) :: o'
      else (k', v') :: replace_property o' k v
  end.

Fixpoint add_property (o : list (jsstring * value)) (k : jsstring) (v : value)
    : list (jsstring * value) :=
  match o with
  | [] => [(k, v)]
  | (k', v') :: o' =>
      if key_before k k' then (k, v) :: o
      else (k', v') :: add_property o' k v
  end.

(** CreateDataProperty on the object a literal builds: a key that exists
    keeps its place and gets the new value. *)
Definition define_property (o : list (jsstring * value)) (k : jsstring) (v : value)
    : list (jsstring * value) :=
  if bool_decide (k ∈ o.*1) then replace_property o k v
  else add_property o k v.

(** *** JSON.parse *)

Fixpoint parse_value (fuel : nat) (s : jsstring) : option (value * jsstring) :=
  match fuel with
  | O => None
  | S fuel =>
      match skip_ws s with
      | [] => None
      | c :: r =>
          if c =? 110 then r' ← strip_prefix (js "ull") r; Some (Null, r')
          else if c =? 116 then r' ← strip_prefix (js "rue") r; Some (Bool true, r')
          else if c =? 102 then r' ← strip_prefix (js "alse") r; Some (Bool false, r')
          else if c =? 34 then
            '(str, r') ← parse_string_body r; Some (String_ str, r')
          else if c =? 91 then
            match skip_ws r with
            | d :: r' =>
                if d =? 93 then Some (Array [], r')
                else '(vs, r'') ← parse_elements fuel r; Some (Array vs, r'')
            | [] => None
            end
          else if c =? 123 then
            match skip_ws r with
            | d :: r' =>
                if d =? 125 then Some (Object [], r')
                else '(ms, r'') ← parse_members fuel r []; Some (Object ms, r'')
            | [] => None
            end
          else
            '(literal, r') ← scan_number (c :: r); Some (Number literal, r')
      end
  end
with parse_elements (fuel : nat) (s : jsstring) : option (list value * jsstring) :=
  match fuel with
  | O => None
  | S fuel =>
      '(v, r) ← parse_value fuel s;
      match skip_ws r with
      | d :: r' =>
          if d =? 44 then '(vs, r'') ← parse_elements fuel r'; Some (v :: vs, r'')
          else if d =? 93 then Some ([v], r')
          else None
      | [] => None
      end
  end
with parse_members (fuel : nat) (s : jsstring) (o : list (jsstring * value))
    : option (list (jsstring * value) * jsstring) :=
  match fuel with
  | O => None
  | S fuel =>
      match skip_ws s with
      | q :: r =>
          if q =? 34 then
            '(k, r1) ← parse_string_body r;
            match skip_ws r1 with
            | d :: r2 =>
                if d =? 58 then
                  '(v, r3) ← parse_value fuel r2;
                  let o := define_property o k v in
                  match skip_ws r3 with
                  | e :: r4 =>
                      if e =? 44 then parse_members fuel r4 o
                      else if e =? 125 then Some (o, r4)
                      else None
                  | [] => None
                  end
                else None
            | [] => None
            end
          else None
      | [] => None
      end
  end.

(** The whole text is one value between optional white space. *)
Definition parse (text : jsstring) : option value :=
  '(v, r) ← parse_value (S (length text)) text;
  match skip_ws r with
  | [] => Some v
  | _ :: _ => None
  end.

(** *** JSON.stringify *)

Fixpoint join (sep : jsstring) (parts : list jsstring) : jsstring :=
  match parts with
  | [] => []
  | [p] => p
  | p :: parts => p ++ sep ++ join sep parts
  end.

(** SerializeJSONProperty, SerializeJSONArray and SerializeJSONObject *)
Fixpoint serialize (gap indent : jsstring) (v : value) : jsstring :=
  match v with
  | Null => js "null"
  | Bool true => js "true"
  | Bool false => js "false"
  | Number literal => literal
  | String_ s => quote s
  | Array elements =>
      let stepback := indent in
      let indent := indent ++ gap in
      let partial := serialize gap indent <$> elements in
      if bool_decide (partial = []) then js "[]"
      else if bool_decide (gap = []) then
        [91] ++ join [44] partial ++ [93]
      else
        [91; 10] ++ indent ++ join ([44; 10] ++ indent) partial
          ++ [10] ++ stepback ++ [93]
  | Object members =>
      let stepback := indent in
      let indent := indent ++ gap in
      let partial :=
        (fun m : jsstring * value =>
           quote m.1 ++ [58] ++ (if bool_decide (gap = []) then [] else [32])
             ++ serialize gap indent m.2) <$> members in
      if bool_decide (partial = []) then js "{}"
      else if bool_decide (gap = []) then
        [123] ++ join [44] partial ++ [125]
      else
        [123; 10] ++ indent ++ join ([44; 10] ++ indent) partial
          ++ [10] ++ stepback ++ [125]
  end.

(** The gap of a numeric [space]: that many spaces, ten at most. *)
Definition gap_of_space (space : N) : jsstring :=
  replicate (N.to_nat (N.min 10 space)) 32.

Definition stringify (v : value) (space : N) : jsstring :=
  serialize (gap_of_space space) [] v.

(** *** new URL *)

Definition is_scheme_char (c : N) : bool :=
  is_alpha c || is_digit c || (c =? 43) || (c =? 45) || (c =? 46).

Definition is_slash (c : N) : bool := (c =? 47) || (c =? 92).

Definition is_special (scheme : jsstring) : bool :=
  bool_decide (scheme ∈ [js "http"; js "https"; js "ws"; js "wss"; js "ftp"]).

Definition is_host_end (c : N) : bool :=
  is_slash c || (c =? 63) || (c =? 35) || (c =? 58) || (c =? 64) || (c =? 32).

Record url_record := { scheme : jsstring; scheme_specific : jsstring }.

Definition URL_new (s : jsstring) : option url_record :=
  match s with
  | c :: r =>
      if is_alpha c then
        match span is_scheme_char r with
        | (sc, d :: rest) =>
            if d =? 58 then
              if is_special (c :: sc) then
                match (span is_slash rest).2 with
                | h :: _ =>
                    if is_host_end h then None
                    else Some {| scheme := c :: sc; scheme_specific := rest |}
                | [] => None
                end
              else Some {| scheme := c :: sc; scheme_specific := rest |}
            else None
        | (_, []) => None
        end
      else None
  | [] => None
  end.

(** *** The shape of texts and values

    The predicates in which the reading of a serialised value is
    stated: white space, the literals of the number grammar, the order
    of the keys of an object, the values [parse] returns. *)

Definition blank (w : jsstring) : Prop := Forall (fun c => is_ws c = true) w.

Definition then_cons (c : N) (r : option (jsstring * jsstring))
    : option (jsstring * jsstring) :=
  '(str, rest) ← r; Some (c :: str, rest).

Definition digits (ds : jsstring) : Prop :=
  Forall (fun c => is_digit c = true) ds.

Definition int_shape (i : jsstring) : Prop :=
  i = [48] \/ exists c ds, i = c :: ds /\ is_digit19 c = true /\ digits ds.

Definition frac_shape (f : jsstring) : Prop :=
  f = [] \/ exists ds, f = 46 :: ds /\ ds <> [] /\ digits ds.

Definition exp_shape (e : jsstring) : Prop :=
  e = [] \/
  exists c sign ds, e = c :: sign ++ ds /\ (c = 101 \/ c = 69) /\
    (sign = [] \/ sign = [43] \/ sign = [45]) /\ ds <> [] /\ digits ds.

(** The literals of the JSON grammar. *)
Definition number_shape (literal : jsstring) : Prop :=
  exists sign i f e, literal = sign ++ i ++ f ++ e /\
    (sign = [] \/ sign = [45]) /\ int_shape i /\ frac_shape f /\ exp_shape e.

(** What follows a literal does not continue it. *)
Definition ends_number (rest : jsstring) : Prop :=
  match rest with
  | [] => True
  | c :: _ => is_digit c = false /\ c <> 46 /\ c <> 101 /\ c <> 69
  end.

Definition no_digit_next (rest : jsstring) : Prop :=
  head (is_digit <$> rest) <> Some true.

(** [k] does not come after [k'] in the order of property keys. *)
Definition key_le (k k' : jsstring) : Prop := key_before k' k = false.

(** The keys of an object are distinct and in the order of property keys. *)
Definition ordered (o : list (jsstring * value)) : Prop :=
  StronglySorted key_le o.*1 /\ NoDup o.*1.

(** The values [parse] returns: their numbers are literals of the grammar
    and the keys of their objects are [ordered]. *)
#[local] Unset Elimination Schemes.
Inductive well_formed : value -> Prop :=
  | wf_null : well_formed Null
  | wf_bool b : well_formed (Bool b)
  | wf_number literal : number_shape literal -> well_formed (Number literal)
  | wf_string s : well_formed (String_ s)
  | wf_array elements :
      Forall well_formed elements -> well_formed (Array elements)
  | wf_object members :
      ordered members -> Forall (fun m => well_formed m.2) members ->
      well_formed (Object members).
#[local] Set Elimination Schemes.

(** The fuel that reading a value back takes. *)
Fixpoint size (v : value) : nat :=
  match v with
  | Array elements => S (sum_list ((fun v => S (size v)) <$> elements))
  | Object members => S (sum_list ((fun m => S (size m.2)) <$> members))
  | _ => 1
  end.

(** The white space [serialize] puts after an opening bracket and after
    a comma, and the one before a closing bracket. *)
Definition opening (gap indent : jsstring) : jsstring :=
  if bool_decide (gap = []) then [] else 10 :: indent ++ gap.
Definition closing (gap indent : jsstring) : jsstring :=
  if bool_decide (gap = []) then [] else 10 :: indent.

Definition member_text (gap indent : jsstring) (m : jsstring * value) : jsstring :=
  quote m.1 ++ [58] ++ (if bool_decide (gap = []) then [] else [32])
    ++ serialize gap indent m.2.

(** A value starts with a character that is neither white space nor a
    closing bracket. *)
Definition starts_value (s : jsstring) : Prop :=
  exists c t, s = c :: t /\ is_ws c = false /\ c <> 93 /\ c <> 125.

(** [parse_value] reads [v] back from the text [print v], whatever
    follows that cannot continue a number. *)
Definition reads_back (print : value -> jsstring) (v : value) : Prop :=
  forall fuel rest,
    (size v <= fuel)%nat -> ends_number rest ->
    parse_value fuel (print v ++ rest) = Some (v, rest).

#[export] Instance platform : Platform := {|
  JSValue := value;
  JSON_parse := parse;
  JSON_stringify := stringify;
  SyntaxError_message := fun _ => js "Unexpected token in JSON";
  URL := url_record;
  new_URL := URL_new
|}.

End Ref.

(** * Sample sessions on the reference platform *)

Module Scenario.

#[local] Existing Instance Ref.platform.

Definition ok_url : jsstring := js "https://example.test/ok".
Definition fail_url : jsstring := js "https://example.test/fail".
Definition bad_url : jsstring := js "not a url".

(** The body [{"a":1}] and the text [JSON.stringify] writes for it with
    an indentation of 2: three lines, the second one indented. *)
Definition body_a1 : jsstring :=
  js "{" ++ [34%N] ++ js "a" ++ [34%N] ++ js ":1}".
Definition pretty_a1 : jsstring :=
  js "{" ++ [10%N] ++ js "  " ++ [34%N] ++ js "a" ++ [34%N] ++ js ": 1"
    ++ [10%N] ++ js "}".

Definition ok_response : Response :=
  {| http_status := 200; body := BodyText body_a1 |}.
Definition not_found_response : Response :=
  {| http_status := 404; body := BodyText body_a1 |}.
Definition timeout : Thrown := ErrorInstance (js "timeout").

(** The url typed into the input of a fresh application. *)
Definition typed (url : jsstring) : App :=
  {| state := setUrl url initial_state; inflight := [] |}.

Definition ok_closure : Closure := {| c_url := ok_url; c_history := [] |}.

Definition ok_record (now : Z) : ApiRequest :=
  ApiRequest.mk now ok_url pretty_a1 req_success (js "10:00:00").

(** One request answered; a second one started; while it is pending the
    item of the first is clicked and the button pressed again. *)
Definition overlapping : list Event :=
  [ Change ok_url; ClickFetch;
    Settle 0 (Fulfilled ok_response) 1000 (js "10:00:00");
    ClickFetch; ClickItem 0; ClickFetch ].

(** Two requests, each answered before the next gesture, the second
    within the millisecond of the first. *)
Definition same_tick : list Event :=
  [ Change ok_url; ClickFetch;
    Settle 0 (Fulfilled ok_response) 1000 (js "10:00:00");
    ClickFetch;
    Settle 0 (Fulfilled ok_response) 1000 (js "10:00:00") ].

(** Two requests a second apart, the second one rejected. *)
Definition two_requests : list Event :=
  [ Change ok_url; ClickFetch;
    Settle 0 (Fulfilled ok_response) 1000 (js "10:00:00");
    KeyDown (js "Enter");
    Settle 0 (Rejected timeout) 2000 (js "10:00:01") ].

End Scenario.

(** * Two states of the sample session *)

Module Sessions.
Import Scenario.
#[local] Existing Instance Ref.platform.

(** The first request of [two_requests] has been answered. *)
Definition answered : App :=
  {| state := {| url := ok_url; response := pretty_a1; status := success;
                 history := [ok_record 1000]; currentRequestId := Some 1000 |};
     inflight := [] |}.

(** The second request of [two_requests] is pending. *)
Definition waiting : App :=
  {| state := {| url := ok_url; response := js "Fetching data...";
                 status := loading; history := [ok_record 1000];
                 currentRequestId := Some 1000 |};
     inflight := [{| c_url := ok_url; c_history := [ok_record 1000] |}] |}.

(** A url of 43 characters. *)
Definition long_url : jsstring := js "https://example.test/a/rather/long/path?q=1".

(** The second request of [two_requests]. *)
Definition second_request : list Event :=
  [ KeyDown (js "Enter");
    Settle 0 (Rejected timeout) 2000 (js "10:00:01") ].

(** After [overlapping] two calls are pending; the first of them is
    answered. *)
Definition two_pending_one_answered : list Event :=
  overlapping ++ [Settle 0 (Fulfilled ok_response) 2000 (js "10:00:01")].

(** One request answered, a second one started, and the history cleared
    while it is pending. *)
Definition cleared_while_pending : list Event :=
  [ Change ok_url; ClickFetch;
    Settle 0 (Fulfilled ok_response) 1000 (js "10:00:00");
    ClickFetch; ClickClear ].

End Sessions.

(** * Properties of the request controller *)

Section ControllerProperties.
Context {P : Platform}.

Lemma handleFetch_settle_history c r now time st :
  history (handleFetch_settle c r now time st)
  = c_history c ++ [newRequest_of c r now time].
Proof.
  unfold handleFetch_settle, newRequest_of.
  destruct (awaited r) as [e|data]; reflexivity.
Qed.

Lemma handleFetch_settle_status c r now time st :
  status (handleFetch_settle c r now time st)
  = Status_of_request (ApiRequest.status (newRequest_of c r now time)).
Proof.
  unfold handleFetch_settle, newRequest_of.
  destruct (awaited r) as [e|data]; reflexivity.
Qed.

Lemma newRequest_of_id c r now time :
  ApiRequest.id (newRequest_of c r now time) = now.
Proof. unfold newRequest_of. destruct (awaited r); reflexivity. Qed.

(** A call that gets past the guard captures the url and the history of
    the state it was started in. *)
Lemma handleFetch_start_closure st st1 c :
  handleFetch_start st = (st1, Some c) ->
  c_url c = url st /\ c_history c = history st /\
  st1 = setResponse (js "Fetching data...") (setStatus loading st) /\
  url st <> [] /\ isValidUrl (url st) = true.
Proof.
  unfold handleFetch_start.
  destruct (bool_decide (url st = [])) eqn:He; simpl; [discriminate|].
  destruct (isValidUrl (url st)) eqn:Hv; simpl; [|discriminate].
  intros [= <- <-]. apply bool_decide_eq_false in He. auto.
Qed.

(** [raises] describes the cases in which [catch] is entered. *)
Lemma awaited_raises r e : awaited r = inl e <-> raises r e.
Proof.
  split.
  - destruct r as [e'|res]; simpl.
    + intros [= ->]. constructor.
    + unfold Response_json. destruct (body res) as [text|e'] eqn:Hb.
      * destruct (JSON_parse text) eqn:Hp; [discriminate|].
        intros [= <-]. by constructor.
      * intros [= ->]. by constructor.
  - destruct 1 as [e|res e Hb|res text Hb Hp]; simpl; [done|..];
      unfold Response_json; rewrite Hb; [done|]. by rewrite Hp.
Qed.

(** A submission that passes the guard, started in state [st], whose
    call resolves with a body that parses as JSON: whatever the state
    [st2] in which the call resumes, it sets the history to the history
    of [st] followed by one [success] record that holds the body
    serialised again with an indentation of 2; the status is [success],
    the displayed response is the serialised text and the selected id is
    the id of the new record.  The history of [st2] plays no part. *)
Lemma settle_success_from_captured_history
    (st st1 st2 : State) (c : Closure) (res : Response)
    (text : jsstring) (data : JSValue) (now : Z) (time : jsstring) :
  handleFetch_start st = (st1, Some c) ->
  body res = BodyText text ->
  JSON_parse text = Some data ->
  let serialized := JSON_stringify data 2 in
  let record := ApiRequest.mk now (url st) serialized req_success time in
  let st' := handleFetch_settle c (Fulfilled res) now time st2 in
  history st' = history st ++ [record] /\
  length (history st') = S (length (history st)) /\
  status st' = success /\
  response st' = serialized /\
  currentRequestId st' = Some (ApiRequest.id record).
Proof.
  intros Hstart Hbody Hparse.
  destruct (handleFetch_start_closure _ _ _ Hstart) as (Hu & Hh & _).
  unfold handleFetch_settle; simpl. unfold Response_json.
  rewrite Hbody, Hparse; simpl. rewrite Hu, Hh.
  repeat split. rewrite length_app; simpl; lia.
Qed.

(** The same for a call during which the network call or the JSON
    parsing raises [e]: the history becomes the history of [st] followed
    by one [error] record whose text is "Error: " followed by the message
    of [e], or by "Unknown error" when [e] is not an [Error]; the status
    is [error]. *)
Lemma settle_failure_from_captured_history
    (st st1 st2 : State) (c : Closure) (r : Settled) (e : Thrown)
    (now : Z) (time : jsstring) :
  handleFetch_start st = (st1, Some c) ->
  raises r e ->
  let errorText :=
    js "Error: " ++
    match e with
    | ErrorInstance message => message
    | OtherValue => js "Unknown error"
    end in
  let record := ApiRequest.mk now (url st) errorText req_error time in
  let st' := handleFetch_settle c r now time st2 in
  history st' = history st ++ [record] /\
  length (history st') = S (length (history st)) /\
  status st' = error /\
  response st' = errorText.
Proof.
  intros Hstart Hraise%awaited_raises.
  destruct (handleFetch_start_closure _ _ _ Hstart) as (Hu & Hh & _).
  unfold handleFetch_settle; simpl. rewrite Hraise; simpl. rewrite Hu, Hh.
  repeat split. rewrite length_app; simpl; lia.
Qed.

(** C3, as the code has it. The HTTP status of a response is not looked
    at: a response with a status that is not OK is recorded as [error]
    exactly when its body is not JSON, and as [success] when it is. *)
Theorem non_ok_response_outcome_follows_body
    (c : Closure) (res : Response) (text : jsstring)
    (now : Z) (time : jsstring) (st : State) :
  Response_ok res = false ->
  body res = BodyText text ->
  let outcome := if JSON_parse text is Some _ then req_success else req_error in
  let st' := handleFetch_settle c (Fulfilled res) now time st in
  status st' = Status_of_request outcome /\
  (ApiRequest.status <$> list.last (history st')) = Some outcome.
Proof.
  intros _ Hbody.
  unfold handleFetch_settle; simpl. unfold Response_json. rewrite Hbody.
  destruct (JSON_parse text); simpl; rewrite last_snoc; done.
Qed.

(** C4. With a url that is empty or that [new URL] rejects, [handleFetch]
    returns at once: the five state variables keep their values and no
    call is suspended, so no request is issued and no record appended;
    this holds for both gestures that submit. *)
Theorem submit_invalid_url_is_noop (app : App) :
  url (state app) = [] \/ new_URL (url (state app)) = None ->
  handleFetch_start (state app) = (state app, None) /\
  submit app = app /\
  forall ev app',
    ev = ClickFetch \/ (exists key, ev = KeyDown key) ->
    dispatch app ev = Some app' -> app' = app.
Proof.
  intros Hbad.
  assert (Hstart : handleFetch_start (state app) = (state app, None)).
  { unfold handleFetch_start, isValidUrl.
    destruct Hbad as [->| ->]; [done|]. by rewrite orb_true_r. }
  assert (Hsubmit : submit app = app).
  { unfold submit. rewrite Hstart. by destruct app. }
  repeat split; [done..|].
  intros ev app' [->|[key ->]]; simpl.
  - destruct (_ || _); [discriminate|]. congruence.
  - destruct (App_disabled _); [discriminate|].
    destruct (handleKeyPress _ _); congruence.
Qed.


(** C10. Whether the call succeeded or failed, when it resumes it appends
    its new record as the last element of the history and selects it. *)
Theorem settle_selects_new_record
    (c : Closure) (r : Settled) (now : Z) (time : jsstring) (st : State) :
  let st' := handleFetch_settle c r now time st in
  exists record,
    list.last (history st') = Some record /\
    history st' = c_history c ++ [record] /\
    ApiRequest.id record = now /\
    currentRequestId st' = Some (ApiRequest.id record).
Proof.
  exists (newRequest_of c r now time).
  rewrite handleFetch_settle_history, last_snoc, newRequest_of_id.
  repeat split.
  unfold handleFetch_settle. by destruct (awaited r).
Qed.

(** ** Single flight *)

Lemma loading_disables_submission (app : App) :
  status (state app) = loading ->
  can_submit app = false /\
  dispatch app ClickFetch = None /\
  (forall key, dispatch app (KeyDown key) = None) /\
  (forall value, dispatch app (Change value) = None).
Proof.
  intros Hl. unfold can_submit, dispatch, App_disabled; simpl.
  rewrite Hl. simpl. done.
Qed.

Lemma submit_single_flight app :
  inflight app = [] -> single_flight (submit app).
Proof.
  intros Hnone. unfold submit, handleFetch_start.
  destruct (_ || _); simpl; [by left|].
  right. rewrite Hnone. done.
Qed.

Lemma single_flight_idle app :
  single_flight app -> status (state app) <> loading -> inflight app = [].
Proof. intros [Hn|[Hl _]] Hs; [done|]. by destruct Hs. Qed.

Lemma dispatch_single_flight app ev app' :
  single_flight app ->
  undisturbed app [ev] = true ->
  dispatch app ev = Some app' ->
  single_flight app'.
Proof.
  intros Hsf Hund Hd.
  destruct (decide (status (state app) = loading)) as [Hl|Hl].
  - destruct (loading_disables_submission app Hl) as (_ & Hc & Hk & Hv).
    destruct ev as [value|key| |i| |k r now time]; simpl in Hund.
    + rewrite Hv in Hd; discriminate.
    + rewrite Hk in Hd; discriminate.
    + rewrite Hc in Hd; discriminate.
    + apply andb_true_iff in Hund as [Hnone%bool_decide_eq_true _].
      simpl in Hd. destruct (_ !! i); [|discriminate].
      injection Hd as <-. by left.
    + apply andb_true_iff in Hund as [Hnone%bool_decide_eq_true _].
      simpl in Hd. destruct (clear_button _); [|discriminate].
      injection Hd as <-. by left.
    + simpl in Hd. destruct (inflight app !! k) as [c|] eqn:Hk'; [|discriminate].
      injection Hd as <-. left; simpl.
      destruct Hsf as [Hn|[_ Hlen]]; [by rewrite Hn in Hk'|].
      destruct (inflight app) as [|c0 [|c1 l]]; try discriminate.
      by destruct k.
  - pose proof (single_flight_idle app Hsf Hl) as Hnone.
    destruct ev as [value|key| |i| |k r now time]; simpl in Hd.
    + destruct (App_disabled _); [discriminate|]. injection Hd as <-. by left.
    + destruct (App_disabled _); [discriminate|].
      destruct (handleKeyPress _ _); injection Hd as <-;
        [by apply submit_single_flight|by left].
    + destruct (_ || _); [discriminate|]. injection Hd as <-.
      by apply submit_single_flight.
    + destruct (_ !! i); [|discriminate]. injection Hd as <-. by left.
    + destruct (clear_button _); [|discriminate]. injection Hd as <-. by left.
    + by rewrite Hnone in Hd.
Qed.

Lemma run_single_flight evs : forall app app',
  single_flight app ->
  undisturbed app evs = true ->
  run app evs = Some app' ->
  single_flight app'.
Proof.
  induction evs as [|ev evs IH]; intros app app' Hsf Hund Hrun; simpl in *.
  - by injection Hrun as <-.
  - destruct (dispatch app ev) as [app1|] eqn:Hd; [|discriminate].
    apply andb_true_iff in Hund as [Hev Hrest].
    apply (IH app1); [|done..].
    eapply dispatch_single_flight; [done| |done].
    simpl. by rewrite Hev, Hd.
Qed.

(** C5, as the code has it. While the status is [loading] no submission
    can begin: the button and the input are disabled.  In a run in which
    no history item is clicked and the history is not cleared while a
    call is suspended, a suspended call implies the status [loading], so
    that no submission can begin and at most one call is in flight. *)
Theorem single_flight_while_loading (evs : list Event) (app : App) :
  run initial evs = Some app ->
  undisturbed initial evs = true ->
  (status (state app) = loading -> can_submit app = false) /\
  (inflight app <> [] -> status (state app) = loading) /\
  (inflight app <> [] -> can_submit app = false) /\
  (length (inflight app) <= 1)%nat.
Proof.
  intros Hrun Hund.
  assert (Hsf : single_flight app).
  { eapply run_single_flight; [|done..]. by left. }
  split; [intros Hl; by apply loading_disables_submission|].
  destruct Hsf as [Hn|[Hl Hlen]].
  - rewrite Hn. repeat split; try done. simpl; lia.
  - repeat split; [done| |lia]. intros _. by apply loading_disables_submission.
Qed.

(** ** The history as a log *)

Lemma StronglySorted_sublist {A} (R : relation A) (l1 l2 : list A) :
  l1 `sublist_of` l2 -> StronglySorted R l2 -> StronglySorted R l1.
Proof.
  induction 1 as [|x l1 l2 Hsub IH|x l1 l2 Hsub IH]; intros Hs.
  - constructor.
  - apply StronglySorted_inv in Hs as [Hs Hx]. constructor; [by apply IH|].
    rewrite Forall_forall in Hx |- *. intros y Hy. apply Hx.
    by eapply elem_of_sublist.
  - apply StronglySorted_inv in Hs as [Hs _]. by apply IH.
Qed.

Lemma StronglySorted_lt_NoDup (l : list Z) :
  StronglySorted Z.lt l -> NoDup l.
Proof.
  induction 1 as [|x l _ IH Hx]; constructor; [|done].
  intros Hin. rewrite Forall_forall in Hx. specialize (Hx _ Hin). lia.
Qed.

Lemma logged_weaken app L L' :
  logged app L -> logged app (L ++ L').
Proof.
  intros [Hh Hc]. split; [by apply sublist_inserts_r|].
  eapply Forall_impl; [done|]. intros c Hs. by apply sublist_inserts_r.
Qed.

Lemma submit_logged app L : logged app L -> logged (submit app) L.
Proof.
  intros [Hh Hc]. unfold submit, handleFetch_start.
  destruct (_ || _); simpl; [done|]. split; [done|].
  apply Forall_app. split; [done|]. by repeat constructor.
Qed.

Lemma dispatch_logged app ev app' L :
  dispatch app ev = Some app' ->
  logged app L -> logged app' (L ++ created app ev).
Proof.
  intros Hd HL. pose proof HL as [Hh Hc].
  destruct ev as [value|key| |i| |k r now time]; simpl in *;
    try rewrite app_nil_r.
  - destruct (App_disabled _); [discriminate|]. by injection Hd as <-.
  - destruct (App_disabled _); [discriminate|].
    destruct (handleKeyPress _ _); injection Hd as <-;
      [by apply submit_logged|done].
  - destruct (_ || _); [discriminate|]. injection Hd as <-.
    by apply submit_logged.
  - destruct (_ !! i); [|discriminate]. by injection Hd as <-.
  - destruct (clear_button _); [|discriminate]. injection Hd as <-.
    split; [apply sublist_nil_l|done].
  - destruct (inflight app !! k) as [c|] eqn:Hk; [|discriminate].
    injection Hd as <-. split; simpl.
    + rewrite handleFetch_settle_history. apply sublist_app; [|done].
      by apply (Forall_lookup_1 _ _ _ _ Hc Hk).
    + apply Forall_delete. eapply Forall_impl; [done|].
      intros c' Hs. by apply sublist_inserts_r.
Qed.

Lemma run_logged evs : forall app app' L,
  run app evs = Some app' ->
  logged app L -> logged app' (L ++ records_created app evs).
Proof.
  induction evs as [|ev evs IH]; intros app app' L Hrun HL; simpl in *.
  - injection Hrun as <-. by rewrite app_nil_r.
  - destruct (dispatch app ev) as [app1|] eqn:Hd; [|discriminate].
    rewrite app_assoc. apply (IH app1); [done|]. by apply dispatch_logged.
Qed.

(** The ids of the records created are the readings of the clock. *)
Lemma records_created_ids evs : forall app app',
  run app evs = Some app' ->
  ApiRequest.id <$> records_created app evs = clock_readings evs.
Proof.
  induction evs as [|ev evs IH]; intros app app' Hrun; simpl in *; [done|].
  destruct (dispatch app ev) as [app1|] eqn:Hd; [|discriminate].
  rewrite fmap_app, (IH _ _ Hrun).
  destruct ev as [value|key| |i| |k r now time]; simpl in *; try done.
  destruct (inflight app !! k); [|discriminate].
  simpl. by rewrite newRequest_of_id.
Qed.

(** ** Display formatting *)

(** C8. Formatting the text that [formatResponse] returned, with the
    same status, returns that text. *)
Theorem formatResponse_idempotent `{!JSONLaws P} (text : jsstring) (st : Status) :
  formatResponse (formatResponse text st) st = formatResponse text st.
Proof.
  unfold formatResponse.
  destruct (bool_decide (st = success) || bool_decide (st = error)); [|done].
  destruct (JSON_parse text) as [parsed|] eqn:Hp.
  - destruct (stringify_parse_stable text parsed 2 Hp) as (v' & Hp' & Hv').
    by rewrite Hp'.
  - by rewrite Hp.
Qed.

End ControllerProperties.

(** ** Truncation *)

Lemma substring_prefix (s : jsstring) (n : Z) :
  substring s 0 n = take (Z.to_nat n) s.
Proof.
  unfold substring, str_length.
  set (len := Z.of_nat (length s)).
  set (b := Z.min (Z.max n 0) len).
  replace (Z.min (Z.max 0 0) len) with 0 by lia.
  replace (Z.min 0 b) with 0 by lia.
  replace (Z.max 0 b - 0) with b by lia.
  change (drop (Z.to_nat 0) s) with s.
  destruct (decide (n <= len)) as [Hle|Hgt].
  - f_equal. lia.
  - subst b len. rewrite !take_ge; [done|lia..].
Qed.

(** C9, as the code has it. For every budget the result is the url when
    the url fits, and otherwise the first [maxLength - 3] characters of
    the url, none when that is negative, followed by three dots.  With
    a budget of at least 3 the result has at most that many characters;
    with a smaller budget a url that does not fit becomes the three dots
    alone, which exceed it. *)
Theorem truncateUrl_within_budget (url : jsstring) (maxLength : Z) :
  (exists p, p `prefix_of` url /\
     str_length p = Z.max 0 (Z.min (maxLength - 3) (str_length url)) /\
     truncateUrl url maxLength =
       if str_length url <=? maxLength then url else p ++ js "...") /\
  (3 <= maxLength -> str_length (truncateUrl url maxLength) <= maxLength) /\
  (maxLength < 3 -> maxLength < str_length url ->
   truncateUrl url maxLength = js "..." /\
   maxLength < str_length (truncateUrl url maxLength)).
Proof.
  unfold truncateUrl. rewrite substring_prefix. split; [|split].
  - exists (take (Z.to_nat (maxLength - 3)) url).
    split; [apply prefix_take|]. split; [|done].
    unfold str_length. rewrite length_take. lia.
  - intros Hmax.
    destruct (Z.leb_spec (str_length url) maxLength) as [Hle|Hgt]; [done|].
    unfold str_length in *. rewrite length_app, length_take.
    change (length (js "...")) with 3%nat. lia.
  - intros Hsmall Hgt.
    destruct (Z.leb_spec (str_length url) maxLength) as [Hle|_]; [lia|].
    replace (Z.to_nat (maxLength - 3)) with 0%nat by lia. rewrite take_0.
    split; [done|]. change (str_length ([] ++ js "...")) with 3. lia.
Qed.

(** * Properties of the states a run reaches *)

Section SessionProperties.
Context {P : Platform}.

(** ** The items of the history panel *)

Lemma HistoryPanel_items_lookup (h : list ApiRequest) (sel : option Z) (i : nat) :
  items (HistoryPanel h sel) !! i =
  (fun r => HistoryItem r r (bool_decide (Some (ApiRequest.id r) = sel))) <$> h !! i.
Proof.
  unfold HistoryPanel. destruct h as [|r h]; [done|].
  rewrite bool_decide_false by done. cbn [items]. by rewrite list_lookup_fmap.
Qed.

Lemma HistoryPanel_items_length (h : list ApiRequest) (sel : option Z) :
  length (items (HistoryPanel h sel)) = length h.
Proof.
  unfold HistoryPanel. destruct h as [|r h]; [done|].
  rewrite bool_decide_false by done. cbn [items]. by rewrite length_fmap.
Qed.

Lemma dispatch_ClickItem app i app' :
  dispatch app (ClickItem i) = Some app' ->
  exists r, history (state app) !! i = Some r /\
    app' = {| state := handleSelectRequest r (state app);
              inflight := inflight app |}.
Proof.
  cbn [dispatch]. rewrite HistoryPanel_items_lookup.
  destruct (history (state app) !! i) as [r|]; [|done].
  intros [= <-]. by exists r.
Qed.

Lemma dispatch_ClickClear app app' :
  dispatch app ClickClear = Some app' ->
  history (state app) <> [] /\
  app' = {| state := handleClearHistory (state app); inflight := inflight app |}.
Proof.
  cbn [dispatch]. unfold HistoryPanel.
  destruct (history (state app)) as [|r h]; [done|].
  rewrite bool_decide_false by done. by intros [= <-].
Qed.

(** What a gesture that submits does: nothing, or it starts a call. *)
Lemma submit_cases app :
  ((url (state app) = [] \/ isValidUrl (url (state app)) = false) /\
   submit app = app) \/
  (url (state app) <> [] /\ isValidUrl (url (state app)) = true /\
   submit app =
     {| state := setResponse (js "Fetching data...") (setStatus loading (state app));
        inflight := inflight app ++
          [{| c_url := url (state app); c_history := history (state app) |}] |}).
Proof.
  unfold submit, handleFetch_start.
  destruct (bool_decide (url (state app) = [])) eqn:He; simpl.
  { left. apply bool_decide_eq_true in He. split; [by left|by destruct app]. }
  destruct (isValidUrl (url (state app))) eqn:Hv; simpl.
  - right. apply bool_decide_eq_false in He. done.
  - left. split; [by right|by destruct app].
Qed.

Lemma dispatch_Change app value :
  dispatch app (Change value) =
  if App_disabled (state app) then None
  else Some {| state := setUrl value (state app); inflight := inflight app |}.
Proof. reflexivity. Qed.

Lemma dispatch_KeyDown app key :
  dispatch app (KeyDown key) =
  if App_disabled (state app) then None
  else if bool_decide (key = js "Enter") then Some (submit app) else Some app.
Proof.
  unfold dispatch, handleKeyPress. cbn [input_disabled InputField].
  destruct (App_disabled (state app)); [done|].
  by destruct (bool_decide (key = js "Enter")).
Qed.

Lemma dispatch_ClickFetch app :
  dispatch app ClickFetch =
  if App_disabled (state app)
     || negb (bool_decide (url (state app) = []) || isValidUrl (url (state app)))
  then None else Some (submit app).
Proof. reflexivity. Qed.

Lemma App_disabled_false app :
  App_disabled (state app) = false <-> status (state app) <> loading.
Proof. unfold App_disabled. by rewrite bool_decide_eq_false. Qed.

(** ** Steps *)

Lemma dispatch_step app ev app' : dispatch app ev = Some app' <-> step app ev app'.
Proof.
  split.
  - intros Hd.
    destruct ev as [value|key| |i| |k r now time].
    + rewrite dispatch_Change in Hd.
      destruct (App_disabled (state app)) eqn:Hl; [done|].
      apply App_disabled_false in Hl. injection Hd as <-. by constructor.
    + rewrite dispatch_KeyDown in Hd.
      destruct (App_disabled (state app)) eqn:Hl; [done|].
      apply App_disabled_false in Hl.
      case_bool_decide as Hk; injection Hd as <-; [|by apply step_other_key].
      subst key. destruct (submit_cases app) as [[Hbad ->]|(Hu & Hv & ->)].
      * apply step_rejected; [auto|done|]. destruct Hbad; auto.
      * apply step_start; auto.
    + rewrite dispatch_ClickFetch in Hd.
      destruct (App_disabled (state app)) eqn:Hl; [done|].
      apply App_disabled_false in Hl. simpl in Hd.
      destruct (bool_decide (url (state app) = [])) eqn:He; simpl in Hd.
      * apply bool_decide_eq_true in He. injection Hd as <-.
        destruct (submit_cases app) as [[Hbad ->]|(Hu & Hv & ->)]; [|done].
        apply step_rejected; auto.
      * destruct (isValidUrl (url (state app))) eqn:Hv; [|done].
        injection Hd as <-. apply bool_decide_eq_false in He.
        destruct (submit_cases app) as [[[?|?] _]|(_ & _ & ->)]; [done|congruence|].
        apply step_start; auto.
    + apply dispatch_ClickItem in Hd as (r & Hi & ->). by constructor.
    + apply dispatch_ClickClear in Hd as (Hne & ->). by constructor.
    + cbn [dispatch] in Hd. destruct (inflight app !! k) as [c|] eqn:Hk; [|done].
      injection Hd as <-. by constructor.
  - destruct 1 as [app value Hl|app key Hl Hk|app ev Hev Hl Hbad
                   |app ev Hev Hl Hu Hv|app i request Hi|app Hne|app k c r now time Hk].
    + rewrite dispatch_Change. apply App_disabled_false in Hl. by rewrite Hl.
    + rewrite dispatch_KeyDown. apply App_disabled_false in Hl. rewrite Hl.
      by rewrite bool_decide_false.
    + apply App_disabled_false in Hl.
      assert (Hs : submit app = app).
      { destruct (submit_cases app) as [[_ ->]|(Hu & Hv & _)]; [done|].
        destruct Hbad as [?|[_ ?]]; congruence. }
      destruct Hev as [->| ->].
      * destruct Hbad as [Hu|[? _]]; [|done].
        rewrite dispatch_ClickFetch, Hl, Hu, Hs. done.
      * rewrite dispatch_KeyDown, Hl, bool_decide_true, Hs; done.
    + apply App_disabled_false in Hl.
      assert (Hs : submit app =
                {| state := setResponse (js "Fetching data...")
                              (setStatus loading (state app));
                   inflight := inflight app ++
                     [{| c_url := url (state app);
                         c_history := history (state app) |}] |}).
      { destruct (submit_cases app) as [[[?|?] _]|(_ & _ & ->)]; [done|congruence|done]. }
      destruct Hev as [->| ->].
      * rewrite dispatch_ClickFetch, Hl, Hv, Hs. simpl.
        by rewrite orb_true_r.
      * by rewrite dispatch_KeyDown, Hl, bool_decide_true, Hs.
    + cbn [dispatch]. by rewrite HistoryPanel_items_lookup, Hi.
    + cbn [dispatch]. unfold HistoryPanel.
      destruct (history (state app)); [done|]. by rewrite bool_decide_false.
    + cbn [dispatch]. by rewrite Hk.
Qed.

(** A property that every step keeps holds in every state a run reaches
    from a state in which it holds. *)
Lemma run_invariant (I : App -> Prop) :
  (forall app ev app', I app -> step app ev app' -> I app') ->
  forall evs app app', I app -> run app evs = Some app' -> I app'.
Proof.
  intros Hstep. induction evs as [|ev evs IH]; intros app app' HI Hrun;
    simpl in Hrun.
  - by injection Hrun as <-.
  - destruct (dispatch app ev) as [app1|] eqn:Hd; [|done].
    apply (IH app1); [|done]. eapply Hstep; [done|]. by apply dispatch_step.
Qed.

(** ** The records and the display of a session *)

Lemma awaited_value r data :
  awaited r = inr data -> exists text, JSON_parse text = Some data.
Proof.
  destruct r as [e|res]; [done|]. simpl. unfold Response_json.
  destruct (body res) as [text|e]; [|done].
  destruct (JSON_parse text) as [data'|] eqn:Hp; [|done].
  intros [= <-]. by exists text.
Qed.

Lemma handleFetch_settle_response c r now time st :
  response (handleFetch_settle c r now time st)
  = ApiRequest.response (newRequest_of c r now time).
Proof.
  unfold handleFetch_settle, newRequest_of.
  destruct (awaited r) as [e|data]; reflexivity.
Qed.

Lemma handleFetch_settle_selected c r now time st :
  currentRequestId (handleFetch_settle c r now time st) = Some now.
Proof. unfold handleFetch_settle. by destruct (awaited r). Qed.

Lemma handleFetch_settle_url c r now time st :
  url (handleFetch_settle c r now time st) = url st.
Proof. unfold handleFetch_settle. by destruct (awaited r). Qed.

Lemma newRequest_of_url c r now time :
  ApiRequest.url (newRequest_of c r now time) = c_url c.
Proof. unfold newRequest_of. by destruct (awaited r). Qed.

Lemma newRequest_of_text c r now time :
  match ApiRequest.status (newRequest_of c r now time) with
  | req_success => success_text (ApiRequest.response (newRequest_of c r now time))
  | req_error => error_text (ApiRequest.response (newRequest_of c r now time))
  end.
Proof.
  unfold newRequest_of. destruct (awaited r) as [e|data] eqn:Ha; simpl.
  - by eexists.
  - destruct (awaited_value _ _ Ha) as [text Hp]. by exists text, data.
Qed.

Lemma newRequest_of_valid c r now time :
  closure_valid c -> record_valid (newRequest_of c r now time).
Proof.
  intros (Hu & Hv & _). unfold record_valid. rewrite newRequest_of_url.
  split; [done|]. split; [done|]. apply newRequest_of_text.
Qed.

Lemma step_session_valid app ev app' :
  session_valid app -> step app ev app' -> session_valid app'.
Proof.
  intros (Hh & Hc & Hd) Hstep.
  destruct Hstep as [app value Hl|app key Hl Hk|app ev Hev Hl Hbad
                    |app ev Hev Hl Hu Hv|app i request Hi|app Hne
                    |app k c r now time Hk]; try done.
  - split; [done|]. split; [|done].
    apply Forall_app. split; [done|]. by repeat constructor.
  - split; [done|]. split; [done|].
    apply (Forall_lookup_1 _ _ _ _ Hh) in Hi as (_ & _ & Ht).
    unfold display_valid. cbn. by destruct (ApiRequest.status request).
  - pose proof (Forall_lookup_1 _ _ _ _ Hc Hk) as Hcv.
    pose proof (newRequest_of_valid c r now time Hcv) as Hr.
    split; [|split]; cbn [state inflight].
    + rewrite handleFetch_settle_history. apply Forall_app.
      split; [by destruct Hcv as (_ & _ & ?)|]. by apply Forall_singleton.
    + by apply Forall_delete.
    + unfold display_valid.
      rewrite handleFetch_settle_status, handleFetch_settle_response.
      pose proof (newRequest_of_text c r now time) as Ht.
      by destruct (ApiRequest.status (newRequest_of c r now time)).
Qed.

Lemma initial_session_valid : session_valid initial.
Proof. split; [|split]; by constructor. Qed.

Lemma run_session_valid evs app :
  run initial evs = Some app -> session_valid app.
Proof.
  apply (run_invariant session_valid); [|apply initial_session_valid].
  intros ? ? ?. apply step_session_valid.
Qed.

(** X1. Only urls that passed the guard of [handleFetch] are requested and
    recorded: in every state a run reaches, the url of every record of
    the history and of every pending call is not empty and is accepted
    by [new URL]. *)
Theorem recorded_urls_are_valid (evs : list Event) (app : App) :
  run initial evs = Some app ->
  Forall (fun r => ApiRequest.url r <> [] /\ isValidUrl (ApiRequest.url r) = true)
    (history (state app)) /\
  Forall (fun c => c_url c <> [] /\ isValidUrl (c_url c) = true) (inflight app).
Proof.
  intros (Hh & Hc & _)%run_session_valid. split.
  - eapply Forall_impl; [done|]. by intros r (? & ? & _).
  - eapply Forall_impl; [done|]. by intros c (? & ? & _).
Qed.

(** X2. In every state a run reaches, the text of a record fits its outcome:
    an error record holds "Error: " followed by a message, a success
    record the text [JSON.stringify] wrote, with an indentation of 2, for
    a value [JSON.parse] produced. *)
Theorem recorded_texts_fit_outcome (evs : list Event) (app : App) :
  run initial evs = Some app ->
  Forall (fun r =>
            match ApiRequest.status r with
            | req_success =>
                exists text data, JSON_parse text = Some data /\
                  ApiRequest.response r = JSON_stringify data 2
            | req_error =>
                exists message, ApiRequest.response r = js "Error: " ++ message
            end)
    (history (state app)).
Proof.
  intros (Hh & _)%run_session_valid.
  eapply Forall_impl; [done|]. by intros r (_ & _ & ?).
Qed.

(** X3. What the response box shows is the stored text: in every state a run
    reaches, formatting the response for display returns it unchanged,
    on a platform that satisfies [JSONLaws] and on which no text that
    starts with "Error: " is JSON. *)
Theorem display_shows_response `{!JSONLaws P} (evs : list Event) (app : App) :
  (forall message, JSON_parse (js "Error: " ++ message) = None) ->
  run initial evs = Some app ->
  ResponseDisplay (response (state app)) (status (state app))
  = response (state app).
Proof.
  intros Herr (_ & _ & Hd)%run_session_valid.
  unfold ResponseDisplay, formatResponse, display_valid in *.
  destruct (status (state app)); try done; simpl.
  - destruct Hd as (text & data & Hp & ->).
    destruct (stringify_parse_stable text data 2 Hp) as (v' & -> & Hv'). done.
  - destruct Hd as (message & ->). by rewrite Herr.
Qed.

(** ** The selection *)

Lemma step_selection_valid app ev app' :
  selection_valid (state app) -> step app ev app' -> selection_valid (state app').
Proof.
  intros Hsel Hstep.
  destruct Hstep as [app value Hl|app key Hl Hk|app ev Hev Hl Hbad
                    |app ev Hev Hl Hu Hv|app i request Hi|app Hne
                    |app k c r now time Hk]; try done.
  - right. exists request. split; [|done]. by eapply list_elem_of_lookup_2.
  - by left.
  - right. exists (newRequest_of c r now time). cbn [state].
    rewrite handleFetch_settle_history, handleFetch_settle_selected,
      newRequest_of_id.
    split; [|done]. apply elem_of_app. right. by apply list_elem_of_singleton.
Qed.

(** X5. The selection never dangles: in every state a run reaches, the
    selected id is empty or the id of a record of the history, and in the
    second case the history panel shows an item as active. *)
Theorem selection_refers_to_history (evs : list Event) (app : App) :
  run initial evs = Some app ->
  (currentRequestId (state app) = None \/
   exists r, r ∈ history (state app) /\
             currentRequestId (state app) = Some (ApiRequest.id r)) /\
  (is_Some (currentRequestId (state app)) ->
   exists i item,
     items (HistoryPanel (history (state app)) (currentRequestId (state app))) !! i
       = Some item /\
     item_active item = true).
Proof.
  intros Hrun.
  assert (Hsel : selection_valid (state app)).
  { apply (run_invariant (fun a => selection_valid (state a)))
      with (evs := evs) (app := initial); [|by left|done].
    intros ? ? ?. apply step_selection_valid. }
  split; [done|]. intros Hsome.
  destruct Hsel as [Hnone|(r & Hin & Hr)].
  { rewrite Hnone in Hsome. by destruct Hsome. }
  apply list_elem_of_lookup in Hin as [i Hi].
  exists i. eexists. rewrite HistoryPanel_items_lookup, Hi. split; [done|].
  cbn. by rewrite bool_decide_true.
Qed.

(** ** Loading *)

(** X6. The application is never left loading with nothing to wait for: in
    every state a run reaches, the status [loading] implies that a call
    is pending. *)
Theorem loading_has_pending_call (evs : list Event) (app : App) :
  run initial evs = Some app ->
  status (state app) = loading ->
  inflight app <> [].
Proof.
  intros Hrun.
  apply (run_invariant (fun a => status (state a) = loading -> inflight a <> []))
    with (evs := evs) (app := initial); [|done..].
  clear. intros app ev app' HI Hstep.
  destruct Hstep as [app value Hl|app key Hl Hk|app ev Hev Hl Hbad
                    |app ev Hev Hl Hu Hv|app i request Hi|app Hne
                    |app k c r now time Hk]; try done; cbn [state inflight].
  - intros _. by destruct (inflight app).
  - cbn. by destruct (ApiRequest.status request).
  - rewrite handleFetch_settle_status.
    by destruct (ApiRequest.status (newRequest_of c r now time)).
Qed.

(** ** Runs in which a pending call is left alone *)

Lemma run_undisturbed_invariant (I : App -> Prop) :
  (forall app ev app',
      I app -> undisturbed app [ev] = true -> step app ev app' -> I app') ->
  forall evs app app',
    I app -> undisturbed app evs = true -> run app evs = Some app' -> I app'.
Proof.
  intros Hstep. induction evs as [|ev evs IH]; intros app app' HI Hund Hrun;
    simpl in Hrun, Hund.
  - by injection Hrun as <-.
  - destruct (dispatch app ev) as [app1|] eqn:Hd; [|done].
    apply andb_true_iff in Hund as [Hev Hrest].
    apply (IH app1); [|done..]. eapply Hstep; [done| |by apply dispatch_step].
    simpl. by rewrite Hev, Hd.
Qed.

Lemma step_in_step app ev app' :
  in_step app -> undisturbed app [ev] = true -> step app ev app' -> in_step app'.
Proof.
  intros HI Hund Hstep.
  destruct Hstep as [app value Hl|app key Hl Hk|app ev Hev Hl Hbad
                    |app ev Hev Hl Hu Hv|app i request Hi|app Hne
                    |app k c r now time Hk]; try done.
  - destruct HI as [Hn|[? _]]; [by left|done].
  - destruct HI as [Hn|[? _]]; [|done]. right. cbn [state inflight].
    by rewrite Hn.
  - simpl in Hund. apply andb_true_iff in Hund as [Hn%bool_decide_eq_true _].
    by left.
  - simpl in Hund. apply andb_true_iff in Hund as [Hn%bool_decide_eq_true _].
    by left.
  - left. cbn [inflight]. destruct HI as [Hn|[_ Hc]].
    + by rewrite Hn in Hk.
    + rewrite Hc in *. by destruct k.
Qed.

(** X7. In a run in which no history item is clicked and the history is not
    cleared while a call is pending, the call that settles finds the url
    and the history it started with: it appends its record to the history
    on display, the url of the record is the url in the input, and no
    call is pending afterwards. *)
Theorem settle_appends_to_displayed_history
    (evs : list Event) (app app' : App)
    (k : nat) (r : Settled) (now : Z) (time : jsstring) :
  run initial evs = Some app ->
  undisturbed initial evs = true ->
  dispatch app (Settle k r now time) = Some app' ->
  exists record,
    history (state app') = history (state app) ++ [record] /\
    length (history (state app')) = S (length (history (state app))) /\
    ApiRequest.url record = url (state app) /\
    ApiRequest.id record = now /\
    url (state app') = url (state app) /\
    inflight app' = [].
Proof.
  intros Hrun Hund Hd.
  assert (HI : in_step app).
  { apply (run_undisturbed_invariant in_step)
      with (evs := evs) (app := initial); [|by left|done..].
    intros ? ? ?. apply step_in_step. }
  cbn [dispatch] in Hd.
  destruct (inflight app !! k) as [c|] eqn:Hk; [|done]. injection Hd as <-.
  destruct HI as [Hn|[_ Hc]]; [by rewrite Hn in Hk|].
  rewrite Hc in Hk |- *. destruct k; [|done]. injection Hk as <-.
  exists (newRequest_of
            {| c_url := url (state app); c_history := history (state app) |}
            r now time).
  cbn [state inflight].
  rewrite handleFetch_settle_history, handleFetch_settle_url, length_app,
    newRequest_of_url, newRequest_of_id.
  repeat split. simpl. lia.
Qed.

(** ** The history between two clearings *)

Lemma run_app evs1 : forall app evs2,
  run app (evs1 ++ evs2) = run app evs1 ≫= fun app1 => run app1 evs2.
Proof.
  induction evs1 as [|ev evs1 IH]; intros app evs2; simpl; [done|].
  by destruct (dispatch app ev).
Qed.

Lemma undisturbed_app evs1 : forall app app1 evs2,
  run app evs1 = Some app1 ->
  undisturbed app (evs1 ++ evs2)
  = undisturbed app evs1 && undisturbed app1 evs2.
Proof.
  induction evs1 as [|ev evs1 IH]; intros app app1 evs2 Hrun; simpl in *.
  - by injection Hrun as <-.
  - destruct (dispatch app ev) as [app'|]; [|done].
    by rewrite (IH _ _ _ Hrun), andb_assoc.
Qed.

(** While a pending call is left alone, an event other than a click on
    Clear adds to the history the record it creates, and nothing else. *)
Lemma step_history_grows app ev app' :
  in_step app -> undisturbed app [ev] = true -> ev <> ClickClear ->
  step app ev app' ->
  history (state app') = history (state app) ++ created app ev.
Proof.
  intros HI Hund Hev Hstep.
  destruct Hstep as [app value Hl|app key Hl Hk|app ev Hev' Hl Hbad
                    |app ev Hev' Hl Hu Hv|app i request Hi|app Hne
                    |app k c r now time Hk]; simpl; try by rewrite app_nil_r.
  - by destruct Hev' as [->| ->]; rewrite app_nil_r.
  - by destruct Hev' as [->| ->]; rewrite app_nil_r.
  - rewrite Hk, handleFetch_settle_history.
    destruct HI as [Hn|[_ Hc]]; [by rewrite Hn in Hk|].
    rewrite Hc in Hk. destruct k; [|done]. by injection Hk as <-.
Qed.

Lemma run_history_grows evs : forall app app',
  in_step app -> undisturbed app evs = true -> ClickClear ∉ evs ->
  run app evs = Some app' ->
  history (state app') = history (state app) ++ records_created app evs.
Proof.
  induction evs as [|ev evs IH]; intros app app' HI Hund Hclear Hrun;
    simpl in *.
  - injection Hrun as <-. by rewrite app_nil_r.
  - apply not_elem_of_cons in Hclear as [Hev Hclear].
    destruct (dispatch app ev) as [app1|] eqn:Hd; [|done].
    apply andb_true_iff in Hund as [Hund1 Hund].
    assert (Hone : undisturbed app [ev] = true).
    { simpl. by rewrite Hund1, Hd. }
    apply dispatch_step in Hd.
    rewrite (IH app1 app'); [|by eapply step_in_step|done..].
    by rewrite (step_history_grows app ev app1), <- app_assoc.
Qed.

(** C6, as the code has it. An id is the reading of the clock at the
    creation of the record, so in a run in which each reading is greater
    than the ones before it the ids of the history are strictly
    increasing, hence unique.  In every run the history is a subsequence
    of the records created, in the order of their creation: a record is
    never changed or reordered.  And when no item is clicked and the
    history is not cleared while a call is pending, then over a stretch
    [evs2] of the run without a click on Clear the history grows by
    exactly the records created in that stretch, in their order: none is
    dropped, merged or left out. *)
Theorem history_ids_increasing (evs1 evs2 : list Event) (app1 app2 : App) :
  run initial evs1 = Some app1 ->
  run app1 evs2 = Some app2 ->
  (StronglySorted Z.lt (clock_readings (evs1 ++ evs2)) ->
   StronglySorted Z.lt (ApiRequest.id <$> history (state app2)) /\
   NoDup (ApiRequest.id <$> history (state app2))) /\
  history (state app2) `sublist_of` records_created initial (evs1 ++ evs2) /\
  (undisturbed initial (evs1 ++ evs2) = true ->
   ClickClear ∉ evs2 ->
   history (state app2)
   = history (state app1) ++ records_created app1 evs2).
Proof.
  intros Hrun1 Hrun2.
  assert (Hrun : run initial (evs1 ++ evs2) = Some app2).
  { by rewrite run_app, Hrun1. }
  assert (Hsub : history (state app2)
                   `sublist_of` records_created initial (evs1 ++ evs2)).
  { assert (HL : logged app2 ([] ++ records_created initial (evs1 ++ evs2))).
    { apply run_logged; [done|]. split; simpl; [done|constructor]. }
    by destruct HL as [Hh _]. }
  split; [|split; [done|]].
  - intros Hclock.
    assert (Hs : StronglySorted Z.lt (ApiRequest.id <$> history (state app2))).
    { eapply StronglySorted_sublist; [by apply fmap_sublist|].
      by rewrite (records_created_ids _ _ _ Hrun). }
    auto using StronglySorted_lt_NoDup.
  - intros Hund Hclear.
    rewrite (undisturbed_app _ _ _ _ Hrun1) in Hund.
    apply andb_true_iff in Hund as [Hund1 Hund2].
    apply run_history_grows; [|done..].
    apply (run_undisturbed_invariant in_step)
      with (evs := evs1) (app := initial); [|by left|done..].
    intros ? ? ?. apply step_in_step.
Qed.

(** ** The history as a log, whatever the clock *)

Lemma records_created_length evs : forall app app',
  run app evs = Some app' ->
  length (records_created app evs) = length (clock_readings evs).
Proof.
  intros app app' Hrun.
  by rewrite <- (records_created_ids _ _ _ Hrun), length_fmap.
Qed.

(** X8. In every state a run reaches, the history is a subsequence of the
    records the settled calls created, in the order of their creation:
    it holds no other record, none twice and none out of order, so it has
    at most as many records as calls have settled, and every id in it is
    a reading of the clock. *)
Theorem history_within_created_records (evs : list Event) (app : App) :
  run initial evs = Some app ->
  history (state app) `sublist_of` records_created initial evs /\
  (length (history (state app)) <= length (clock_readings evs))%nat /\
  Forall (fun r => ApiRequest.id r ∈ clock_readings evs) (history (state app)).
Proof.
  intros Hrun.
  assert (HL : logged app ([] ++ records_created initial evs)).
  { apply run_logged; [done|]. split; simpl; [done|constructor]. }
  destruct HL as [Hh _]. simpl in Hh. split; [done|]. split.
  - rewrite <- (records_created_length _ _ _ Hrun). by apply sublist_length.
  - apply Forall_forall. intros r Hr.
    rewrite <- (records_created_ids _ _ _ Hrun).
    apply list_elem_of_fmap_2. by eapply elem_of_sublist.
Qed.

(** ** The text and the status on display *)

Lemma step_text_fits_status app ev app' :
  session_valid app -> text_fits_status (state app) ->
  step app ev app' -> text_fits_status (state app').
Proof.
  intros Hs Ht Hstep.
  pose proof (step_session_valid app ev app' Hs Hstep) as (_ & _ & Hd').
  unfold text_fits_status, display_valid in *.
  destruct (status (state app')) eqn:Hst; try done.
  - destruct Hstep as [app value Hl|app key Hl Hk|app ev Hev Hl Hbad
                      |app ev Hev Hl Hu Hv|app i request Hi|app Hne
                      |app k c r now time Hk]; cbn [state] in *.
    + change (status (state app) = idle) in Hst. by rewrite Hst in Ht.
    + by rewrite Hst in Ht.
    + by rewrite Hst in Ht.
    + done.
    + cbn in Hst. by destruct (ApiRequest.status request).
    + by right.
    + rewrite handleFetch_settle_status in Hst.
      by destruct (ApiRequest.status (newRequest_of c r now time)).
  - destruct Hstep as [app value Hl|app key Hl Hk|app ev Hev Hl Hbad
                      |app ev Hev Hl Hu Hv|app i request Hi|app Hne
                      |app k c r now time Hk]; cbn [state] in *.
    + change (status (state app) = loading) in Hst. by rewrite Hst in Ht.
    + by rewrite Hst in Ht.
    + by rewrite Hst in Ht.
    + done.
    + cbn in Hst. by destruct (ApiRequest.status request).
    + done.
    + rewrite handleFetch_settle_status in Hst.
      by destruct (ApiRequest.status (newRequest_of c r now time)).
Qed.

(** X4. In every state a run reaches, the text on display fits the status:
    with [idle] it is one of the two fixed messages, with [loading] it is
    "Fetching data...", with [success] it is the text [JSON.stringify]
    wrote for a parsed value, and with [error] it starts with "Error: ". *)
Theorem displayed_text_fits_status (evs : list Event) (app : App) :
  run initial evs = Some app ->
  match status (state app) with
  | idle =>
      response (state app)
        = js "No data yet. Enter an API endpoint and click Fetch." \/
      response (state app)
        = js "History cleared. Enter an API endpoint and click Fetch."
  | loading => response (state app) = js "Fetching data..."
  | success =>
      exists text data, JSON_parse text = Some data /\
        response (state app) = JSON_stringify data 2
  | error => exists message, response (state app) = js "Error: " ++ message
  end.
Proof.
  intros Hrun.
  apply (run_invariant (fun a => session_valid a /\ text_fits_status (state a)))
    with (evs := evs) (app := initial) (app' := app); [| |done].
  - intros a ev a' [Hs Ht] Hstep. split.
    + by eapply step_session_valid.
    + by eapply step_text_fits_status.
  - split; [apply initial_session_valid|by left].
Qed.

(** ** The button and the guard *)

(** X9. A click on the Fetch button is not ignored when the input is not
    empty: the button is offered only for a url [new URL] accepts, so the
    click starts a request. *)
Theorem fetch_click_starts_request (app app' : App) :
  dispatch app ClickFetch = Some app' ->
  url (state app) <> [] ->
  isValidUrl (url (state app)) = true /\
  status (state app') = loading /\
  response (state app') = js "Fetching data..." /\
  inflight app' = inflight app ++
    [{| c_url := url (state app); c_history := history (state app) |}].
Proof.
  intros Hd%dispatch_step Hu.
  inversion Hd as [| |a ev Hev Hl Hbad|a ev Hev Hl Hu' Hv| | |]; subst.
  - by destruct Hbad as [?|[? _]].
  - done.
Qed.

(** ** Clearing *)

(** X10. When the history is not empty the Clear button is offered; clicking
    it empties the history and the selection, sets the status [idle] and
    the fixed text, and leaves the url and the pending calls alone.  The
    panel then offers neither an item nor the Clear button. *)
Theorem clear_history_resets_session (app : App) :
  history (state app) <> [] ->
  exists app',
    dispatch app ClickClear = Some app' /\
    history (state app') = [] /\
    currentRequestId (state app') = None /\
    status (state app') = idle /\
    response (state app')
      = js "History cleared. Enter an API endpoint and click Fetch." /\
    url (state app') = url (state app) /\
    inflight app' = inflight app /\
    dispatch app' ClickClear = None /\
    forall i, dispatch app' (ClickItem i) = None.
Proof.
  intros Hne. eexists. split.
  { apply dispatch_step. by constructor. }
  repeat split.
Qed.

(** X11. When the history is cleared while a call is pending, in a run in
    which the call was left alone until then, the call puts the cleared
    records back when it settles: the history becomes the history that
    was cleared followed by the record of the call, which is selected. *)
Theorem pending_call_restores_cleared_history
    (evs : list Event) (app : App)
    (k : nat) (r : Settled) (now : Z) (time : jsstring) :
  run initial evs = Some app ->
  undisturbed initial evs = true ->
  is_Some (inflight app !! k) ->
  history (state app) <> [] ->
  exists app1 app2 record,
    dispatch app ClickClear = Some app1 /\
    history (state app1) = [] /\
    dispatch app1 (Settle k r now time) = Some app2 /\
    history (state app2) = history (state app) ++ [record] /\
    ApiRequest.id record = now /\
    currentRequestId (state app2) = Some now.
Proof.
  intros Hrun Hund [c Hk] Hne.
  assert (HI : in_step app).
  { apply (run_undisturbed_invariant in_step)
      with (evs := evs) (app := initial); [|by left|done..].
    intros ? ? ?. apply step_in_step. }
  assert (Hc : c_history c = history (state app)).
  { destruct HI as [Hn|[_ Hc]]; [by rewrite Hn in Hk|].
    rewrite Hc in Hk. destruct k; [|done]. by injection Hk as <-. }
  exists {| state := handleClearHistory (state app); inflight := inflight app |}.
  eexists. exists (newRequest_of c r now time).
  split; [apply dispatch_step; by constructor|]. split; [done|].
  split; [apply dispatch_step; by constructor|]. cbn [state].
  by rewrite handleFetch_settle_history, handleFetch_settle_selected,
    newRequest_of_id, Hc.
Qed.

(** ** What the panel highlights *)

(** X12. After a click on the item of a record, the panel shows the same
    records, each item still bound to its record, and marks as active
    exactly the items of the records that have the id of that record;
    the clicked item is among them. *)
Theorem clicked_item_is_active (app : App) (i : nat) (request : ApiRequest) :
  history (state app) !! i = Some request ->
  exists app',
    dispatch app (ClickItem i) = Some app' /\
    (forall j r,
        history (state app) !! j = Some r ->
        exists item,
          items (HistoryPanel (history (state app'))
                   (currentRequestId (state app'))) !! j = Some item /\
          item_onClick item = r /\
          (item_active item = true <-> ApiRequest.id r = ApiRequest.id request)) /\
    exists item,
      items (HistoryPanel (history (state app'))
               (currentRequestId (state app'))) !! i = Some item /\
      item_active item = true.
Proof.
  intros Hi. eexists. split; [apply dispatch_step; by constructor|].
  cbn [state]. split.
  - intros j r Hj. eexists. rewrite HistoryPanel_items_lookup.
    change (history (handleSelectRequest request (state app)))
      with (history (state app)). rewrite Hj. split; [done|]. split; [done|].
    cbn. rewrite bool_decide_eq_true. split; congruence.
  - eexists. rewrite HistoryPanel_items_lookup.
    change (history (handleSelectRequest request (state app)))
      with (history (state app)). rewrite Hi. split; [done|].
    cbn. by rewrite bool_decide_true.
Qed.

(** X13. When a call settles, the panel shows one item for each record the
    call had captured and a last one for the new record; that last item
    is active and bound to the new record. *)
Theorem settled_record_is_active
    (app : App) (k : nat) (c : Closure) (r : Settled) (now : Z) (time : jsstring) :
  inflight app !! k = Some c ->
  exists app' item,
    dispatch app (Settle k r now time) = Some app' /\
    length (items (HistoryPanel (history (state app'))
                     (currentRequestId (state app'))))
      = S (length (c_history c)) /\
    items (HistoryPanel (history (state app'))
             (currentRequestId (state app'))) !! length (c_history c)
      = Some item /\
    item_active item = true /\
    ApiRequest.id (item_onClick item) = now /\
    list.last (history (state app')) = Some (item_onClick item).
Proof.
  intros Hk.
  exists {| state := handleFetch_settle c r now time (state app);
            inflight := delete k (inflight app) |}.
  exists (HistoryItem (newRequest_of c r now time) (newRequest_of c r now time)
            true).
  split; [apply dispatch_step; by constructor|]. cbn [state].
  rewrite HistoryPanel_items_length, HistoryPanel_items_lookup,
    handleFetch_settle_history, handleFetch_settle_selected, length_app,
    last_snoc.
  rewrite lookup_app_r, Nat.sub_diag by lia. cbn [lookup list_lookup fmap option_fmap option_map].
  rewrite newRequest_of_id, bool_decide_true by done.
  cbn [item_active item_onClick HistoryItem]. rewrite newRequest_of_id.
  repeat split. simpl. lia.
Qed.

(** X14. Clicking the item of the record a call has just appended shows again
    what the call displayed: the state is the one the call left, with the
    url of the record in the input. *)
Theorem selecting_new_record_replays_call
    (app : App) (k : nat) (c : Closure) (r : Settled) (now : Z) (time : jsstring) :
  inflight app !! k = Some c ->
  exists app1 app2,
    dispatch app (Settle k r now time) = Some app1 /\
    dispatch app1 (ClickItem (length (c_history c))) = Some app2 /\
    state app2 = setUrl (c_url c) (state app1) /\
    inflight app2 = inflight app1.
Proof.
  intros Hk. eexists. eexists. split; [apply dispatch_step; by constructor|].
  split.
  - apply dispatch_step.
    apply (step_select _ _ (newRequest_of c r now time)). cbn [state].
    rewrite handleFetch_settle_history.
    by rewrite lookup_app_r, Nat.sub_diag by lia.
  - split; [|done]. cbn [state].
    unfold handleSelectRequest, handleFetch_settle, newRequest_of.
    by destruct (awaited r).
Qed.

(** ** Starting a request *)

(** X15. With a url that is not empty and that [new URL] accepts, and a status
    other than [loading], the button and the Enter key both start a
    request: the status becomes [loading], the text the fixed
    "Fetching data...", one call is added that has captured the url and
    the history; the url, the history and the selection are unchanged,
    and the input is disabled with the button reading "Loading...". *)
Theorem submit_valid_url_starts_request (app : App) (u : URL) :
  status (state app) <> loading ->
  url (state app) <> [] ->
  new_URL (url (state app)) = Some u ->
  exists app',
    dispatch app ClickFetch = Some app' /\
    dispatch app (KeyDown (js "Enter")) = Some app' /\
    status (state app') = loading /\
    response (state app') = js "Fetching data..." /\
    url (state app') = url (state app) /\
    history (state app') = history (state app) /\
    currentRequestId (state app') = currentRequestId (state app) /\
    inflight app' = inflight app ++
      [{| c_url := url (state app); c_history := history (state app) |}] /\
    InputField (url (state app')) (App_disabled (state app'))
      = {| input_disabled := true; input_invalid := false;
           button_disabled := true; button_label := js "Loading..." |}.
Proof.
  intros Hl Hu Hv.
  assert (Hvalid : isValidUrl (url (state app)) = true).
  { unfold isValidUrl. by rewrite Hv. }
  eexists. split; [apply dispatch_step; apply step_start; auto|].
  split; [apply dispatch_step; apply step_start; auto|].
  repeat split. cbn. unfold InputField. cbn. by rewrite Hvalid, orb_true_r.
Qed.

(** ** The url an item shows *)

(** X17. Every item of the history panel shows a text of at most 35
    characters: the url of its record when that has at most 35, and
    otherwise its first 32 characters followed by three dots. *)
Theorem item_url_within_35
    (h : list ApiRequest) (sel : option Z) (i : nat) (item : HistoryItemView) :
  items (HistoryPanel h sel) !! i = Some item ->
  str_length (item_url item) <= 35 /\
  exists r, h !! i = Some r /\
    item_url item =
      if str_length (ApiRequest.url r) <=? 35 then ApiRequest.url r
      else take 32 (ApiRequest.url r) ++ js "...".
Proof.
  rewrite HistoryPanel_items_lookup.
  destruct (h !! i) as [r|]; [|done]. intros [= <-]. cbn [item_url HistoryItem].
  unfold truncateUrl. rewrite substring_prefix.
  change (Z.to_nat (35 - 3)) with 32%nat. split; [|by exists r].
  destruct (Z.leb_spec (str_length (ApiRequest.url r)) 35) as [Hle|Hgt]; [done|].
  unfold str_length in *. rewrite length_app, length_take.
  change (length (js "...")) with 3%nat. lia.
Qed.

End SessionProperties.

(** ** Truncation *)

Lemma truncateUrl_fits (url : jsstring) (maxLength : Z) :
  str_length url <= maxLength -> truncateUrl url maxLength = url.
Proof.
  intros Hle. unfold truncateUrl.
  by destruct (Z.leb_spec (str_length url) maxLength); [|lia].
Qed.

Lemma truncateUrl_cut (url : jsstring) (maxLength : Z) :
  maxLength < str_length url ->
  truncateUrl url maxLength = take (Z.to_nat (maxLength - 3)) url ++ js "...".
Proof.
  intros Hgt. unfold truncateUrl. rewrite substring_prefix.
  by destruct (Z.leb_spec (str_length url) maxLength); [lia|].
Qed.

Lemma truncateUrl_length_aux (url : jsstring) (maxLength : Z) :
  str_length (truncateUrl url maxLength) =
  if str_length url <=? maxLength then str_length url else Z.max maxLength 3.
Proof.
  unfold truncateUrl. rewrite substring_prefix.
  destruct (Z.leb_spec (str_length url) maxLength) as [Hle|Hgt]; [done|].
  unfold str_length in *. rewrite length_app, length_take. simpl. lia.
Qed.

(** X18. The length of a truncated url: the length of the url when it fits the
    budget, and otherwise the budget, or 3 when the budget is below 3; a
    url that does not fit a budget of at least 3 is changed. *)
Theorem truncateUrl_length (url : jsstring) (maxLength : Z) :
  str_length (truncateUrl url maxLength) =
    (if str_length url <=? maxLength then str_length url else Z.max maxLength 3) /\
  (3 <= maxLength < str_length url -> truncateUrl url maxLength <> url).
Proof.
  split; [apply truncateUrl_length_aux|].
  intros Hlt Heq. pose proof (truncateUrl_length_aux url maxLength) as Hlen.
  rewrite Heq in Hlen.
  destruct (Z.leb_spec (str_length url) maxLength); lia.
Qed.

(** X19. Truncating twice with the same budget is truncating once. *)
Theorem truncateUrl_idempotent (url : jsstring) (maxLength : Z) :
  truncateUrl (truncateUrl url maxLength) maxLength = truncateUrl url maxLength.
Proof.
  pose proof (truncateUrl_length_aux url maxLength) as Hlen.
  destruct (Z.leb_spec (str_length url) maxLength) as [Hle|Hgt].
  { rewrite (truncateUrl_fits url) by done. by apply truncateUrl_fits. }
  destruct (decide (3 <= maxLength)) as [Hbig|Hsmall].
  { apply truncateUrl_fits. lia. }
  rewrite (truncateUrl_cut url) by done.
  replace (Z.to_nat (maxLength - 3)) with 0%nat by lia. rewrite take_0.
  rewrite truncateUrl_cut by (unfold str_length; simpl; lia).
  by replace (Z.to_nat (maxLength - 3)) with 0%nat by lia.
Qed.

(** * The reference platform satisfies the law of the JSON services *)

Module RefFacts.
Import Ref.
Local Open Scope N_scope.

(** ** Induction on values *)

Lemma value_ind (Q : value -> Prop) :
  Q Null ->
  (forall b, Q (Bool b)) ->
  (forall literal, Q (Number literal)) ->
  (forall s, Q (String_ s)) ->
  (forall elements, Forall Q elements -> Q (Array elements)) ->
  (forall members, Forall (fun m => Q m.2) members -> Q (Object members)) ->
  forall v, Q v.
Proof.
  intros Hnull Hbool Hnum Hstr Harr Hobj.
  fix IH 1. intros [|b|literal|s|elements|members].
  - exact Hnull.
  - apply Hbool.
  - apply Hnum.
  - apply Hstr.
  - apply Harr. induction elements as [|v vs IHvs]; constructor;
      [apply IH|exact IHvs].
  - apply Hobj. induction members as [|[k v] ms IHms]; constructor;
      [apply IH|exact IHms].
Qed.

(** ** White space *)

Lemma skip_ws_blank w s : blank w -> skip_ws (w ++ s) = skip_ws s.
Proof. induction 1 as [|c w Hc _ IH]; simpl; [done|]. by rewrite Hc. Qed.

Lemma skip_ws_head c s : is_ws c = false -> skip_ws (c :: s) = c :: s.
Proof. intros Hc. simpl. by rewrite Hc. Qed.

Lemma blank_app w1 w2 : blank w1 -> blank w2 -> blank (w1 ++ w2).
Proof. intros. by apply Forall_app. Qed.

Lemma blank_replicate n : blank (replicate n 32).
Proof. apply Forall_replicate. done. Qed.

(** ** Spans *)

Lemma span_app p l rest :
  Forall (fun c => p c = true) l ->
  head (p <$> rest) <> Some true ->
  span p (l ++ rest) = (l, rest).
Proof.
  induction 1 as [|c l Hc _ IH]; intros Hrest; simpl.
  - destruct rest as [|d rest]; [done|]. simpl in *.
    destruct (p d); [by destruct Hrest|done].
  - by rewrite Hc, IH.
Qed.

Lemma span_spec p s a b :
  span p s = (a, b) ->
  s = a ++ b /\ Forall (fun c => p c = true) a /\ head (p <$> b) <> Some true.
Proof.
  revert a b. induction s as [|c s IH]; intros a b; simpl.
  - intros [= <- <-]. by repeat split.
  - destruct (p c) eqn:Hc.
    + destruct (span p s) as [a' b']. intros [= <- <-].
      destruct (IH a' b' eq_refl) as (-> & Ha & Hb). by repeat constructor.
    + intros [= <- <-]. repeat split; [constructor|]. simpl. by rewrite Hc.
Qed.

(** ** Strings *)

Lemma hex_value_hex_digit d : d < 16 -> hex_value (hex_digit d) = Some d.
Proof.
  intros Hd. destruct d as [|p]; [done|].
  do 4 (destruct p as [p|p|]; try done); lia.
Qed.

Lemma hex4_unicode_escape c :
  c < 65536 ->
  hex4 (hex_digit (c / 4096 mod 16)) (hex_digit (c / 256 mod 16))
       (hex_digit (c / 16 mod 16)) (hex_digit (c mod 16)) = Some c.
Proof.
  intros Hc. unfold hex4.
  rewrite !hex_value_hex_digit by (apply N.mod_lt; done). simpl.
  f_equal.
  assert (E1 : c / 16 / 16 = c / 256) by (by rewrite N.Div0.div_div).
  assert (E2 : c / 256 / 16 = c / 4096) by (by rewrite N.Div0.div_div).
  pose proof (N.div_mod c 16 ltac:(done)) as H0.
  pose proof (N.div_mod (c / 16) 16 ltac:(done)) as H1.
  pose proof (N.div_mod (c / 256) 16 ltac:(done)) as H2.
  rewrite E1 in H1. rewrite E2 in H2.
  assert (H3 : c / 4096 < 16) by (apply N.Div0.div_lt_upper_bound; lia).
  rewrite (N.mod_small (c / 4096) 16 H3).
  lia.
Qed.

Lemma parse_raw c s :
  c <> 34 -> c <> 92 -> 32 <= c ->
  parse_string_body (c :: s) = then_cons c (parse_string_body s).
Proof.
  intros H1 H2 H3. simpl.
  destruct (N.eqb_spec c 34); [done|]. destruct (N.eqb_spec c 92); [done|].
  destruct (N.ltb_spec c 32); [lia|]. done.
Qed.

Lemma parse_unicode_escape c s :
  c < 65536 ->
  parse_string_body (unicode_escape c ++ s) = then_cons c (parse_string_body s).
Proof.
  intros Hc. unfold unicode_escape.
  cbn [app parse_string_body]. change (92 =? 34) with false.
  change (92 =? 92) with true. change (117 =? 117) with true. cbv iota.
  by rewrite hex4_unicode_escape.
Qed.

Lemma parse_quote_unit c s :
  parse_string_body (quote_unit c ++ s) = then_cons c (parse_string_body s).
Proof.
  unfold quote_unit.
  do 7 (match goal with
        | |- context [if c =? ?k then _ else _] =>
            destruct (N.eqb_spec c k) as [->|?]; [reflexivity|]
        end).
  destruct (N.ltb_spec c 32).
  - apply parse_unicode_escape. lia.
  - by apply parse_raw.
Qed.

Lemma surrogate_bound c :
  is_high_surrogate c = true \/ is_low_surrogate c = true -> c < 65536.
Proof.
  unfold is_high_surrogate, is_low_surrogate.
  intros [H|H]; apply andb_true_iff in H as [H1 H2];
    apply N.leb_le in H1, H2; lia.
Qed.

Lemma surrogate_raw c :
  is_high_surrogate c = true \/ is_low_surrogate c = true ->
  c <> 34 /\ c <> 92 /\ 32 <= c.
Proof.
  unfold is_high_surrogate, is_low_surrogate.
  intros [H|H]; apply andb_true_iff in H as [H1 H2];
    apply N.leb_le in H1, H2; lia.
Qed.

Lemma parse_quote_body_upto n : forall s rest,
  (length s <= n)%nat ->
  parse_string_body (quote_body s ++ 34 :: rest) = Some (s, rest).
Proof.
  induction n as [|n IH]; intros s rest Hn.
  { destruct s; [done|simpl in Hn; lia]. }
  destruct s as [|c r]; [done|]. simpl in Hn.
  cbn [quote_body].
  destruct (is_high_surrogate c) eqn:Hh.
  - destruct r as [|d r'].
    + rewrite parse_unicode_escape by (apply surrogate_bound; auto). done.
    + destruct (is_low_surrogate d) eqn:Hl.
      * destruct (surrogate_raw c) as (? & ? & ?); [auto|].
        destruct (surrogate_raw d) as (? & ? & ?); [auto|].
        cbn [app]. rewrite !parse_raw by done.
        rewrite IH by (simpl in Hn; lia). done.
      * rewrite <- app_assoc, parse_unicode_escape
          by (apply surrogate_bound; auto).
        rewrite IH by lia. done.
  - destruct (is_low_surrogate c) eqn:Hl.
    + rewrite <- app_assoc, parse_unicode_escape
        by (apply surrogate_bound; auto).
      rewrite IH by lia. done.
    + rewrite <- app_assoc, parse_quote_unit, IH by lia. done.
Qed.

Lemma parse_quote_body s rest :
  parse_string_body (quote_body s ++ 34 :: rest) = Some (s, rest).
Proof. by apply (parse_quote_body_upto (length s)). Qed.

Lemma parse_quote s rest :
  exists q, quote s ++ rest = 34 :: q /\ parse_string_body q = Some (s, rest).
Proof.
  exists (quote_body s ++ 34 :: rest). split; [|apply parse_quote_body].
  unfold quote. simpl. by rewrite <- app_assoc.
Qed.

(** ** Numbers *)

Lemma no_digit_next_cons c rest :
  is_digit c = false -> no_digit_next (c :: rest).
Proof. unfold no_digit_next. simpl. by intros ->. Qed.

Lemma no_digit_next_nil : no_digit_next [].
Proof. done. Qed.

Lemma ends_number_no_digit rest : ends_number rest -> no_digit_next rest.
Proof.
  destruct rest as [|c rest]; [done|]. intros (H & _).
  by apply no_digit_next_cons.
Qed.

Lemma is_digit19_digit c : is_digit19 c = true -> is_digit c = true.
Proof.
  unfold is_digit19, is_digit. intros [H1 H2]%andb_true_iff.
  apply N.leb_le in H1, H2. apply andb_true_iff.
  split; apply N.leb_le; lia.
Qed.

Lemma is_digit_not c k : is_digit c = true -> (k < 48 \/ 57 < k) -> c <> k.
Proof.
  unfold is_digit. intros [H1 H2]%andb_true_iff Hk.
  apply N.leb_le in H1, H2. lia.
Qed.

Lemma scan_int_sound s i r :
  scan_int s = Some (i, r) -> s = i ++ r /\ int_shape i.
Proof.
  destruct s as [|c s]; [done|]. simpl.
  destruct (N.eqb_spec c 48) as [->|Hc].
  - intros [= <- <-]. split; [done|by left].
  - destruct (is_digit19 c) eqn:H19; [|done].
    destruct (span is_digit s) as [ds r'] eqn:Hspan. intros [= <- <-].
    apply span_spec in Hspan as (-> & Hds & _).
    split; [done|]. right. by exists c, ds.
Qed.

Lemma scan_int_shape i rest :
  int_shape i -> no_digit_next rest -> scan_int (i ++ rest) = Some (i, rest).
Proof.
  intros [->|(c & ds & -> & H19 & Hds)] Hrest; [done|]. simpl.
  destruct (N.eqb_spec c 48) as [->|Hc]; [done|].
  rewrite H19. by rewrite span_app.
Qed.

Lemma scan_frac_sound s f r :
  scan_frac s = Some (f, r) -> s = f ++ r /\ frac_shape f.
Proof.
  destruct s as [|c s]; simpl.
  { intros [= <- <-]. split; [done|by left]. }
  destruct (N.eqb_spec c 46) as [->|Hc].
  - destruct (span is_digit s) as [ds r'] eqn:Hspan.
    apply span_spec in Hspan as (-> & Hds & _).
    destruct ds as [|d ds]; [done|]. intros [= <- <-].
    split; [done|]. right. by exists (d :: ds).
  - intros [= <- <-]. split; [done|by left].
Qed.

Lemma scan_frac_shape f rest :
  frac_shape f -> no_digit_next rest ->
  (f = [] -> head rest <> Some 46) ->
  scan_frac (f ++ rest) = Some (f, rest).
Proof.
  intros [->|(ds & -> & Hne & Hds)] Hrest Hdot; simpl.
  - destruct rest as [|c rest]; [done|]. simpl.
    destruct (N.eqb_spec c 46) as [->|Hc]; [|done]. by destruct Hdot.
  - rewrite span_app by done. by destruct ds.
Qed.

Lemma scan_exp_sound s e r :
  scan_exp s = Some (e, r) -> s = e ++ r /\ exp_shape e.
Proof.
  destruct s as [|c s]; simpl.
  { intros [= <- <-]. split; [done|by left]. }
  destruct ((c =? 101) || (c =? 69)) eqn:Hc.
  - assert (Hc' : c = 101 \/ c = 69).
    { apply orb_true_iff in Hc as [H|H]; apply N.eqb_eq in H; auto. }
    assert (Hsign : exists sign r0,
               match s with
               | g :: r0 => if (g =? 43) || (g =? 45) then ([g], r0) else ([], s)
               | [] => ([], s)
               end = (sign, r0) /\ s = sign ++ r0 /\
               (sign = [] \/ sign = [43] \/ sign = [45])).
    { destruct s as [|g r0]; [by exists [], []; auto|].
      destruct (N.eqb_spec g 43) as [->|?]; [by exists [43], r0; auto|].
      destruct (N.eqb_spec g 45) as [->|?]; [by exists [45], r0; auto|].
      by exists [], (g :: r0); auto. }
    destruct Hsign as (sign & r0 & -> & -> & Hsign).
    destruct (span is_digit r0) as [ds r'] eqn:Hspan.
    apply span_spec in Hspan as (-> & Hds & _).
    destruct ds as [|d ds]; [done|]. intros [= <- <-].
    split; [simpl; by rewrite <- app_assoc|]. right.
    by exists c, sign, (d :: ds).
  - intros [= <- <-]. split; [done|by left].
Qed.

Lemma scan_exp_shape e rest :
  exp_shape e -> no_digit_next rest ->
  (e = [] -> head rest <> Some 101 /\ head rest <> Some 69) ->
  scan_exp (e ++ rest) = Some (e, rest).
Proof.
  intros [->|(c & sign & ds & -> & Hc & Hsign & Hne & Hds)] Hrest He.
  - destruct rest as [|c rest]; [done|]. simpl.
    destruct (He eq_refl) as [H1 H2].
    destruct (N.eqb_spec c 101) as [->|?]; [done|].
    destruct (N.eqb_spec c 69) as [->|?]; [done|]. done.
  - assert (Hce : (c =? 101) || (c =? 69) = true) by (by destruct Hc as [->| ->]).
    assert (Hspan : span is_digit (ds ++ rest) = (ds, rest)) by (by apply span_app).
    unfold scan_exp. cbn [app]. rewrite Hce, <- app_assoc.
    destruct ds as [|d ds]; [done|].
    apply Forall_cons in Hds as Hd. destruct Hd as [Hd _].
    destruct Hsign as [->|[->| ->]]; cbn [app].
    + assert (Hd' : (d =? 43) || (d =? 45) = false).
      { apply orb_false_iff.
        split; apply N.eqb_neq; apply is_digit_not; (done || lia). }
      rewrite Hd'. cbn [app] in Hspan. by rewrite Hspan.
    + change (43 =? 43) with true. cbn [orb]. cbn [app] in Hspan.
      by rewrite Hspan.
    + change (45 =? 43) with false. change (45 =? 45) with true. cbn [orb].
      cbn [app] in Hspan. by rewrite Hspan.
Qed.

Lemma exp_next_no_digit e rest :
  exp_shape e -> ends_number rest -> no_digit_next (e ++ rest).
Proof.
  intros [->|(c & sign & ds & -> & Hc & _)] Hrest.
  - by apply ends_number_no_digit.
  - apply no_digit_next_cons. by destruct Hc as [->| ->].
Qed.

Lemma exp_next_no_point e rest :
  exp_shape e -> ends_number rest -> head (e ++ rest) <> Some 46.
Proof.
  intros [->|(c & sign & ds & -> & Hc & _)] Hrest; simpl.
  - destruct rest as [|d rest]; [done|]. destruct Hrest as (_ & H & _).
    simpl. congruence.
  - destruct Hc as [->| ->]; done.
Qed.

Lemma frac_next_no_digit f rest :
  frac_shape f -> no_digit_next rest -> no_digit_next (f ++ rest).
Proof.
  intros [->|(ds & -> & _)] Hrest; [done|]. by apply no_digit_next_cons.
Qed.

Lemma int_head i :
  int_shape i -> exists c l, i = c :: l /\ is_digit c = true.
Proof.
  intros [->|(c & ds & -> & H19 & _)]; [by exists 48, []|].
  exists c, ds. split; [done|]. by apply is_digit19_digit.
Qed.

Lemma scan_number_sound s literal r :
  scan_number s = Some (literal, r) -> s = literal ++ r /\ number_shape literal.
Proof.
  unfold scan_number.
  assert (Hsign : exists sign s0,
             match s with
             | c :: r => if c =? 45 then ([45], r) else ([], s)
             | [] => ([], s)
             end = (sign, s0) /\ s = sign ++ s0 /\ (sign = [] \/ sign = [45])).
  { destruct s as [|c s0]; [by exists [], []; auto|].
    destruct (N.eqb_spec c 45) as [->|?]; [by exists [45], s0; auto|].
    by exists [], (c :: s0); auto. }
  destruct Hsign as (sign & s0 & -> & -> & Hsign).
  destruct (scan_int s0) as [[i s1]|] eqn:Hi; [|done].
  apply scan_int_sound in Hi as [-> Hi]. simpl.
  destruct (scan_frac s1) as [[f s2]|] eqn:Hf; [|done].
  apply scan_frac_sound in Hf as [-> Hf]. simpl.
  destruct (scan_exp s2) as [[e s3]|] eqn:He; [|done].
  apply scan_exp_sound in He as [-> He]. simpl.
  intros [= <- <-]. split; [by rewrite <- !app_assoc|].
  by exists sign, i, f, e.
Qed.

Lemma scan_number_shape literal rest :
  number_shape literal -> ends_number rest ->
  scan_number (literal ++ rest) = Some (literal, rest).
Proof.
  intros (sign & i & f & e & -> & Hsign & Hi & Hf & He) Hrest.
  unfold scan_number.
  assert (Hs : match (sign ++ i ++ f ++ e) ++ rest with
               | c :: r => if c =? 45 then ([45], r)
                           else ([], (sign ++ i ++ f ++ e) ++ rest)
               | [] => ([], (sign ++ i ++ f ++ e) ++ rest)
               end = (sign, i ++ f ++ e ++ rest)).
  { destruct Hsign as [->| ->]; [|by rewrite <- !app_assoc].
    destruct (int_head i Hi) as (c & l & -> & Hc). cbn [app].
    destruct (N.eqb_spec c 45) as [->|?]; [done|].
    by rewrite <- !app_assoc. }
  rewrite Hs.
  rewrite scan_int_shape; [|done|]; cycle 1.
  { apply frac_next_no_digit; [done|]. by apply exp_next_no_digit. }
  simpl. rewrite scan_frac_shape; [|done|..]; cycle 1.
  { by apply exp_next_no_digit. }
  { intros _. by apply exp_next_no_point. }
  simpl. rewrite scan_exp_shape; [done|done|..].
  - by apply ends_number_no_digit.
  - intros _. destruct rest as [|d rest]; [done|].
    destruct Hrest as (_ & _ & H1 & H2). simpl. split; congruence.
Qed.

Lemma number_head literal :
  number_shape literal ->
  exists c l, literal = c :: l /\ (c = 45 \/ is_digit c = true).
Proof.
  intros (sign & i & f & e & -> & Hsign & Hi & _).
  destruct (int_head i Hi) as (c & l & -> & Hc).
  destruct Hsign as [->| ->]; simpl; eauto.
Qed.

(** ** Objects *)

Lemma key_le_trans a b c : key_le a b -> key_le b c -> key_le a c.
Proof.
  unfold key_le, key_before.
  destruct (array_index a) as [na|], (array_index b) as [nb|],
    (array_index c) as [nc|]; try done.
  rewrite !N.ltb_ge. lia.
Qed.

Lemma key_before_le k k' : key_before k k' = true -> key_le k k'.
Proof.
  unfold key_le, key_before.
  destruct (array_index k) as [n|], (array_index k') as [n'|]; try done.
  rewrite N.ltb_lt, N.ltb_ge. lia.
Qed.

Lemma replace_property_keys o k v : (replace_property o k v).*1 = o.*1.
Proof.
  induction o as [|[k' v'] o IH]; [done|]. cbn [replace_property].
  case_bool_decide as Hk; rewrite !fmap_cons; cbn [fst];
    [by rewrite Hk|by rewrite IH].
Qed.

Lemma add_property_keys o k v : (add_property o k v).*1 ≡ₚ k :: o.*1.
Proof.
  induction o as [|[k' v'] o IH]; [done|]. cbn [add_property].
  destruct (key_before k k'); rewrite !fmap_cons; cbn [fst]; [done|].
  rewrite IH. apply Permutation_swap.
Qed.

Lemma add_property_sorted o k v :
  StronglySorted key_le o.*1 -> StronglySorted key_le (add_property o k v).*1.
Proof.
  induction o as [|[k' v'] o IH]; cbn [add_property]; intros Hs.
  { repeat constructor. }
  rewrite fmap_cons in Hs. cbn [fst] in Hs.
  apply StronglySorted_inv in Hs as [Hs Hk'].
  destruct (key_before k k') eqn:Hb; rewrite !fmap_cons; cbn [fst].
  - pose proof (key_before_le _ _ Hb) as Hle.
    constructor; [by constructor|]. constructor; [done|].
    eapply Forall_impl; [done|]. intros x Hx. by eapply key_le_trans.
  - constructor; [by apply IH|].
    rewrite add_property_keys. by constructor.
Qed.

Lemma define_property_ordered o k v :
  ordered o -> ordered (define_property o k v).
Proof.
  intros [Hs Hn]. unfold define_property, ordered.
  case_bool_decide as Hk.
  - by rewrite replace_property_keys.
  - split; [by apply add_property_sorted|].
    rewrite add_property_keys. by constructor.
Qed.

Lemma define_property_values (Q : value -> Prop) o k v :
  Forall (fun m => Q m.2) o -> Q v ->
  Forall (fun m => Q m.2) (define_property o k v).
Proof.
  intros Ho Hv. unfold define_property. case_bool_decide as Hk; clear Hk.
  - induction Ho as [|[k' v'] o Hm Ho IH]; simpl; [constructor|].
    case_bool_decide; by constructor.
  - induction Ho as [|[k' v'] o Hm Ho IH]; simpl; [by repeat constructor|].
    destruct (key_before k k'); by repeat constructor.
Qed.

Lemma add_property_last o k v :
  Forall (fun m => key_le m.1 k) o -> add_property o k v = o ++ [(k, v)].
Proof.
  induction 1 as [|[k' v'] o Hm Ho IH]; [done|]. simpl.
  unfold key_le in Hm. simpl in Hm. by rewrite Hm, IH.
Qed.

Lemma define_property_last o k v :
  ordered (o ++ [(k, v)]) -> define_property o k v = o ++ [(k, v)].
Proof.
  intros [Hs Hn]. rewrite fmap_app in Hs, Hn. simpl in Hs, Hn.
  unfold define_property. rewrite bool_decide_false.
  - apply add_property_last. apply Forall_forall. intros [k' v'] Hin.
    apply (StronglySorted_app_1_elem_of _ _ _ _ _ Hs); [|by left].
    by apply (list_elem_of_fmap_2 fst) in Hin.
  - apply NoDup_app in Hn as (_ & Hn & _). intros Hin.
    apply (Hn _ Hin). by left.
Qed.

Lemma ordered_app_cons o m ms : ordered (o ++ m :: ms) -> ordered (o ++ [m]).
Proof.
  assert (Hsub : (o ++ [m]).*1 `sublist_of` (o ++ m :: ms).*1).
  { apply fmap_sublist. apply sublist_app; [done|].
    apply sublist_skip, sublist_nil_l. }
  intros [Hs Hn]. split.
  - by eapply StronglySorted_sublist.
  - by eapply sublist_NoDup.
Qed.

(** ** What [parse] returns *)

Lemma parse_value_S fuel s :
  parse_value (S fuel) s =
  match skip_ws s with
  | [] => None
  | c :: r =>
      if c =? 110 then r' ← strip_prefix (js "ull") r; Some (Null, r')
      else if c =? 116 then r' ← strip_prefix (js "rue") r; Some (Bool true, r')
      else if c =? 102 then r' ← strip_prefix (js "alse") r; Some (Bool false, r')
      else if c =? 34 then
        '(str, r') ← parse_string_body r; Some (String_ str, r')
      else if c =? 91 then
        match skip_ws r with
        | d :: r' =>
            if d =? 93 then Some (Array [], r')
            else '(vs, r'') ← parse_elements fuel r; Some (Array vs, r'')
        | [] => None
        end
      else if c =? 123 then
        match skip_ws r with
        | d :: r' =>
            if d =? 125 then Some (Object [], r')
            else '(ms, r'') ← parse_members fuel r []; Some (Object ms, r'')
        | [] => None
        end
      else
        '(literal, r') ← scan_number (c :: r); Some (Number literal, r')
  end.
Proof. reflexivity. Qed.

Lemma parse_elements_S fuel s :
  parse_elements (S fuel) s =
  '(v, r) ← parse_value fuel s;
  match skip_ws r with
  | d :: r' =>
      if d =? 44 then '(vs, r'') ← parse_elements fuel r'; Some (v :: vs, r'')
      else if d =? 93 then Some ([v], r')
      else None
  | [] => None
  end.
Proof. reflexivity. Qed.

Lemma parse_members_S fuel s o :
  parse_members (S fuel) s o =
  match skip_ws s with
  | q :: r =>
      if q =? 34 then
        '(k, r1) ← parse_string_body r;
        match skip_ws r1 with
        | d :: r2 =>
            if d =? 58 then
              '(v, r3) ← parse_value fuel r2;
              let o := define_property o k v in
              match skip_ws r3 with
              | e :: r4 =>
                  if e =? 44 then parse_members fuel r4 o
                  else if e =? 125 then Some (o, r4)
                  else None
              | [] => None
              end
            else None
        | [] => None
        end
      else None
  | [] => None
  end.
Proof. reflexivity. Qed.

Lemma parse_well_formed fuel :
  (forall s v r, parse_value fuel s = Some (v, r) -> well_formed v) /\
  (forall s vs r, parse_elements fuel s = Some (vs, r) -> Forall well_formed vs) /\
  (forall s o ms r,
      parse_members fuel s o = Some (ms, r) ->
      ordered o -> Forall (fun m => well_formed m.2) o ->
      ordered ms /\ Forall (fun m => well_formed m.2) ms).
Proof.
  induction fuel as [|fuel (IHv & IHe & IHm)]; [done|].
  split; [|split].
  - intros s v r. rewrite parse_value_S. intros H.
    repeat (case_match; simplify_option_eq); try constructor.
    all: try match goal with
       | H : scan_number _ = Some _ |- _ =>
           by apply scan_number_sound in H as [_ H]
       | H : parse_elements _ _ = Some _ |- _ => by apply IHe in H
       end.
    all: try (edestruct IHm as [? ?]; [done| | |done]; by repeat constructor).
    all: try apply Forall_nil_2.
    all: split; constructor.
  - intros s vs r. rewrite parse_elements_S. intros H.
    simplify_option_eq.
    repeat (case_match; simplify_option_eq); repeat constructor; eauto.
  - intros s o ms r. rewrite parse_members_S. intros H Ho Hwf.
    repeat (case_match; simplify_option_eq).
    + eapply IHm; [done|by apply define_property_ordered|].
      apply define_property_values; eauto.
    + split; [by apply define_property_ordered|].
      apply define_property_values; eauto.
Qed.

(** ** Reading back what [serialize] wrote *)

Lemma serialize_array gap indent v vs :
  serialize gap indent (Array (v :: vs)) =
  [91] ++ opening gap indent
    ++ join (44 :: opening gap indent)
         (serialize gap (indent ++ gap) <$> v :: vs)
    ++ closing gap indent ++ [93].
Proof.
  unfold opening, closing. cbn [serialize]. rewrite !fmap_cons.
  rewrite (bool_decide_false (_ :: _ = [])) by done.
  by destruct (bool_decide (gap = [])).
Qed.

Lemma serialize_object gap indent m ms :
  serialize gap indent (Object (m :: ms)) =
  [123] ++ opening gap indent
    ++ join (44 :: opening gap indent)
         (member_text gap (indent ++ gap) <$> m :: ms)
    ++ closing gap indent ++ [125].
Proof.
  unfold opening, closing, member_text. cbn [serialize]. rewrite !fmap_cons.
  rewrite (bool_decide_false (_ :: _ = [])) by done.
  by destruct (bool_decide (gap = [])).
Qed.

Lemma blank_opening gap indent :
  blank gap -> blank indent -> blank (opening gap indent).
Proof.
  intros Hg Hi. unfold opening. case_bool_decide; [constructor|].
  constructor; [done|]. by apply blank_app.
Qed.

Lemma blank_closing gap indent :
  blank indent -> blank (closing gap indent).
Proof.
  intros Hi. unfold closing. case_bool_decide; [constructor|].
  by constructor.
Qed.

Lemma serialize_starts gap indent v :
  well_formed v -> starts_value (serialize gap indent v).
Proof.
  destruct 1 as [|[]|literal Hn|s|[|v vs] _|[|m ms] _ _];
    try (by eexists _, _).
  - destruct (number_head _ Hn) as (c & l & -> & Hc). exists c, l. simpl.
    destruct Hc as [->|Hc]; [done|].
    unfold is_digit in Hc. apply andb_true_iff in Hc as [H1 H2].
    apply N.leb_le in H1, H2. unfold is_ws.
    repeat split; try lia.
    repeat (apply orb_false_iff; split); apply N.eqb_neq; lia.
  - rewrite serialize_array. by eexists _, _.
  - rewrite serialize_object. by eexists _, _.
Qed.

Lemma join_cons sep p ps :
  exists t, join sep (p :: ps) = p ++ t.
Proof.
  destruct ps; simpl; [exists []; by rewrite app_nil_r|by eexists].
Qed.

Lemma starts_value_app p s : starts_value p -> starts_value (p ++ s).
Proof. intros (c & t & -> & H). by exists c, (t ++ s). Qed.

Lemma starts_value_join sep p ps s :
  starts_value p -> starts_value (join sep (p :: ps) ++ s).
Proof.
  intros Hp. destruct (join_cons sep p ps) as [t ->].
  rewrite <- app_assoc. by apply starts_value_app.
Qed.

Lemma skip_ws_starts w s :
  blank w -> starts_value s ->
  exists c t, skip_ws (w ++ s) = c :: t /\ c <> 93 /\ c <> 125.
Proof.
  intros Hw (c & t & -> & Hc & H1 & H2). exists c, t.
  by rewrite skip_ws_blank, skip_ws_head.
Qed.

Lemma quote_starts s : starts_value (quote s).
Proof. by eexists _, _. Qed.

Lemma parse_value_blank fuel w s :
  blank w -> parse_value fuel (w ++ s) = parse_value fuel s.
Proof.
  intros Hw. destruct fuel; [done|].
  by rewrite !parse_value_S, skip_ws_blank.
Qed.

Lemma parse_elements_blank fuel w s :
  blank w -> parse_elements fuel (w ++ s) = parse_elements fuel s.
Proof.
  intros Hw. destruct fuel; [done|].
  by rewrite !parse_elements_S, parse_value_blank.
Qed.

Lemma parse_members_blank fuel w s o :
  blank w -> parse_members fuel (w ++ s) o = parse_members fuel s o.
Proof.
  intros Hw. destruct fuel; [done|].
  by rewrite !parse_members_S, skip_ws_blank.
Qed.

Lemma ends_number_blank w c rest :
  blank w -> is_digit c = false -> c <> 46 -> c <> 101 -> c <> 69 ->
  ends_number (w ++ c :: rest).
Proof.
  intros Hw. destruct Hw as [|d w Hd _]; [done|]. simpl.
  unfold is_ws in Hd. unfold is_digit.
  repeat (apply orb_true_iff in Hd as [Hd|Hd]); apply N.eqb_eq in Hd;
    subst d; done.
Qed.

Lemma parse_elements_join print w close vs : forall fuel rest,
  vs <> [] ->
  Forall (reads_back print) vs ->
  blank w -> blank close ->
  (sum_list ((fun v => S (size v)) <$> vs) <= fuel)%nat ->
  parse_elements fuel (join (44 :: w) (print <$> vs) ++ close ++ 93 :: rest)
  = Some (vs, rest).
Proof.
  induction vs as [|v vs IH]; intros fuel rest Hne Hread Hw Hc Hfuel; [done|].
  apply Forall_cons in Hread as [Hv Hvs].
  rewrite fmap_cons in Hfuel. simpl in Hfuel.
  destruct fuel as [|fuel]; [lia|].
  rewrite parse_elements_S.
  destruct vs as [|v' vs].
  - simpl. rewrite Hv; [|lia|by apply ends_number_blank]. simpl.
    rewrite skip_ws_blank, skip_ws_head by done. done.
  - change (join (44 :: w) (print <$> v :: v' :: vs))
      with (print v ++ (44 :: w) ++ join (44 :: w) (print <$> v' :: vs)).
    rewrite <- !app_assoc.
    rewrite Hv; [|lia|done]. simpl.
    rewrite parse_elements_blank by done.
    rewrite IH; [done..|]. simpl in *. lia.
Qed.

Lemma parse_member gap indent k v fuel rest o :
  reads_back (serialize gap indent) v ->
  (size v <= fuel)%nat -> ends_number rest ->
  parse_members (S fuel) (member_text gap indent (k, v) ++ rest) o =
  match skip_ws rest with
  | e :: r4 =>
      if e =? 44 then parse_members fuel r4 (define_property o k v)
      else if e =? 125 then Some (define_property o k v, r4)
      else None
  | [] => None
  end.
Proof.
  intros Hv Hfuel Hrest.
  rewrite parse_members_S. unfold member_text, quote. cbn [fst snd].
  cbn [app]. rewrite skip_ws_head by done.
  change (34 =? 34) with true. cbv iota.
  rewrite <- !app_assoc. cbn [app].
  rewrite parse_quote_body. cbn [mbind option_bind].
  rewrite skip_ws_head by done. change (58 =? 58) with true. cbv iota.
  rewrite <- !app_assoc.
  rewrite parse_value_blank
    by (unfold blank; case_bool_decide; by repeat constructor).
  rewrite Hv by done. done.
Qed.

Lemma parse_members_join gap indent w close ms : forall fuel rest o,
  ms <> [] ->
  Forall (fun m => reads_back (serialize gap indent) m.2) ms ->
  blank w -> blank close ->
  ordered (o ++ ms) ->
  (sum_list ((fun m => S (size m.2)) <$> ms) <= fuel)%nat ->
  parse_members fuel
    (join (44 :: w) (member_text gap indent <$> ms) ++ close ++ 125 :: rest) o
  = Some (o ++ ms, rest).
Proof.
  induction ms as [|[k v] ms IH]; intros fuel rest o Hne Hread Hw Hc Ho Hfuel;
    [done|].
  apply Forall_cons in Hread as [Hv Hms]. cbn [snd] in Hv.
  rewrite fmap_cons in Hfuel. simpl in Hfuel.
  destruct fuel as [|fuel]; [lia|].
  pose proof (define_property_last o k v (ordered_app_cons _ _ _ Ho)) as Hdef.
  destruct ms as [|m' ms].
  - cbn [fmap list_fmap join].
    rewrite parse_member; [|done|lia|by apply ends_number_blank].
    rewrite skip_ws_blank, skip_ws_head by done.
    change (125 =? 44) with false. change (125 =? 125) with true. cbv iota.
    by rewrite Hdef.
  - change (join (44 :: w) (member_text gap indent <$> (k, v) :: m' :: ms))
      with (member_text gap indent (k, v) ++ (44 :: w)
              ++ join (44 :: w) (member_text gap indent <$> m' :: ms)).
    rewrite <- !app_assoc.
    rewrite parse_member; [|done|lia|done].
    cbn [app]. rewrite skip_ws_head by done.
    change (44 =? 44) with true. cbv iota.
    rewrite parse_members_blank by done. rewrite Hdef.
    rewrite IH; [by rewrite <- app_assoc|done..| |].
    + by rewrite <- app_assoc.
    + simpl in *. lia.
Qed.

(** The values [parse] returns are read back from their serialisation. *)
Lemma serialize_reads_back v :
  well_formed v ->
  forall gap indent, blank gap -> blank indent ->
    reads_back (serialize gap indent) v.
Proof.
  induction v as [|b|literal|s|elements IH|members IH] using value_ind;
    intros Hwf gap indent Hgap Hindent fuel rest Hfuel Hrest;
    (destruct fuel as [|fuel]; [simpl in Hfuel; lia|]).
  - done.
  - by destruct b.
  - inversion_clear Hwf as [| |? Hn| | |].
    destruct (serialize_starts gap indent (Number literal))
      as (c & t & Hs & Hws & _); [by constructor|].
    destruct (number_head _ Hn) as (c' & t' & Hl & Hc).
    cbn [serialize] in *. rewrite parse_value_S.
    assert (c' = c /\ t' = t) as [-> ->] by (split; congruence).
    rewrite Hs. cbn [app]. rewrite (skip_ws_head c (t ++ rest) Hws).
    assert (Hkind : forall k, (k < 45 \/ 57 < k) -> (c =? k) = false).
    { intros k Hk. apply N.eqb_neq.
      destruct Hc as [->|Hc]; [lia|]. apply is_digit_not; [done|lia]. }
    rewrite !Hkind by lia.
    change (c :: t ++ rest) with ((c :: t) ++ rest).
    rewrite <- Hs, scan_number_shape by done. done.
  - rewrite parse_value_S. cbn [serialize]. unfold quote. cbn [app].
    rewrite skip_ws_head by done.
    change (34 =? 110) with false. change (34 =? 116) with false.
    change (34 =? 102) with false. change (34 =? 34) with true. cbv iota.
    rewrite <- app_assoc. cbn [app]. by rewrite parse_quote_body.
  - inversion_clear Hwf as [| | | |? Hall|].
    destruct elements as [|v vs]; [done|].
    rewrite serialize_array, parse_value_S. cbn [app].
    rewrite skip_ws_head by done.
    change (91 =? 110) with false. change (91 =? 116) with false.
    change (91 =? 102) with false. change (91 =? 34) with false.
    change (91 =? 91) with true. cbv iota.
    pose proof (blank_opening gap indent Hgap Hindent) as Hopen.
    pose proof (blank_closing gap indent Hindent) as Hclose.
    rewrite <- !app_assoc.
    apply Forall_cons in Hall as Hv. destruct Hv as [Hv _].
    rewrite fmap_cons at 1.
    edestruct (skip_ws_starts (opening gap indent)) as (c & t & -> & Hc & _);
      [done| |].
    { apply starts_value_join. by apply serialize_starts. }
    apply N.eqb_neq in Hc. rewrite Hc.
    rewrite parse_elements_blank by done.
    change ([93] ++ rest) with (93 :: rest).
    rewrite parse_elements_join; [done|done| |done|done|].
    + rewrite Forall_forall in IH, Hall. apply Forall_forall. intros x Hx.
      apply IH; [done|by apply Hall|done|by apply blank_app].
    + cbn [size] in Hfuel. lia.
  - inversion_clear Hwf as [| | | | |? Hord Hall].
    destruct members as [|m ms]; [done|].
    rewrite serialize_object, parse_value_S. cbn [app].
    rewrite skip_ws_head by done.
    change (123 =? 110) with false. change (123 =? 116) with false.
    change (123 =? 102) with false. change (123 =? 34) with false.
    change (123 =? 91) with false. change (123 =? 123) with true. cbv iota.
    pose proof (blank_opening gap indent Hgap Hindent) as Hopen.
    pose proof (blank_closing gap indent Hindent) as Hclose.
    rewrite <- !app_assoc.
    rewrite fmap_cons at 1.
    edestruct (skip_ws_starts (opening gap indent)) as (c & t & -> & _ & Hc);
      [done| |].
    { apply starts_value_join. unfold member_text.
      apply starts_value_app, quote_starts. }
    apply N.eqb_neq in Hc. rewrite Hc.
    rewrite parse_members_blank by done.
    change ([125] ++ rest) with (125 :: rest).
    rewrite parse_members_join; [done|done| |done|done|done|].
    + rewrite Forall_forall in IH, Hall. apply Forall_forall. intros x Hx.
      apply IH; [done|by apply Hall|done|by apply blank_app].
    + cbn [size] in Hfuel. lia.
Qed.

(** ** The fuel of [parse] *)

Lemma sum_le_join {A} (g : A -> nat) (f : A -> jsstring) sep (xs : list A) :
  sep <> [] ->
  Forall (fun x => (g x <= length (f x))%nat) xs ->
  (sum_list ((fun x => S (g x)) <$> xs) <= S (length (join sep (f <$> xs))))%nat.
Proof.
  intros Hsep. induction 1 as [|x xs Hx Hxs IH]; [simpl; lia|].
  destruct xs as [|y ys]; [simpl in *; lia|].
  change (join sep (f <$> x :: y :: ys))
    with (f x ++ sep ++ join sep (f <$> y :: ys)).
  rewrite fmap_cons. cbn [sum_list sum_list_with].
  rewrite !length_app.
  destruct sep; [done|]. simpl in *. lia.
Qed.

Lemma size_le_length v :
  well_formed v ->
  forall gap indent, (size v <= length (serialize gap indent v))%nat.
Proof.
  induction v as [|b|literal|s|elements IH|members IH] using value_ind;
    intros Hwf gap indent.
  - simpl. lia.
  - destruct b; simpl; lia.
  - inversion_clear Hwf as [| |? Hn| | |].
    destruct (number_head _ Hn) as (c & t & -> & _). simpl. lia.
  - simpl. lia.
  - inversion_clear Hwf as [| | | |? Hall|].
    destruct elements as [|v vs]; [simpl; lia|].
    rewrite serialize_array. cbn [size]. rewrite !length_app.
    pose proof (sum_le_join size (serialize gap (indent ++ gap))
                  (44 :: opening gap indent) (v :: vs)) as Hsum.
    simpl length at 1. simpl length at 4.
    cut (Forall (fun x => (size x <= length (serialize gap (indent ++ gap) x))%nat)
           (v :: vs)).
    { intros Hf. specialize (Hsum ltac:(done) Hf). lia. }
    rewrite Forall_forall in IH, Hall. apply Forall_forall. intros x Hx.
    apply IH; [done|by apply Hall].
  - inversion_clear Hwf as [| | | | |? Hord Hall].
    destruct members as [|m ms]; [simpl; lia|].
    rewrite serialize_object. cbn [size]. rewrite !length_app.
    pose proof (sum_le_join (fun m => size m.2) (member_text gap (indent ++ gap))
                  (44 :: opening gap indent) (m :: ms)) as Hsum.
    simpl length at 1. simpl length at 4.
    cut (Forall (fun x => (size x.2 <= length (member_text gap (indent ++ gap) x))%nat)
           (m :: ms)).
    { intros Hf. specialize (Hsum ltac:(done) Hf). lia. }
    rewrite Forall_forall in IH, Hall. apply Forall_forall. intros x Hx.
    unfold member_text. rewrite !length_app.
    specialize (IH x Hx (Hall x Hx) gap (indent ++ gap)). lia.
Qed.

(** ** The law of the JSON services *)

Lemma parse_returns_well_formed text v : parse text = Some v -> well_formed v.
Proof.
  unfold parse. intros H.
  destruct (parse_value (S (length text)) text) as [[v' r]|] eqn:Hp; [|done].
  simpl in H. destruct (skip_ws r); [|done]. injection H as <-.
  by apply (proj1 (parse_well_formed _)) in Hp.
Qed.

Lemma parse_stringify v space :
  well_formed v -> parse (stringify v space) = Some v.
Proof.
  intros Hwf. unfold parse, stringify.
  set (text := serialize (gap_of_space space) [] v).
  rewrite <- (app_nil_r text) at 2.
  rewrite (serialize_reads_back v Hwf (gap_of_space space) []); [done|..].
  - apply blank_replicate.
  - constructor.
  - pose proof (size_le_length v Hwf (gap_of_space space) []). subst text. lia.
  - done.
Qed.

#[export] Instance platform_laws : JSONLaws Ref.platform.
Proof.
  intros text v space Hparse. exists v. split; [|done].
  apply parse_stringify. by eapply parse_returns_well_formed.
Qed.

(** ** Fuel *)

#[local] Arguments parse_value : simpl never.
#[local] Arguments parse_elements : simpl never.
#[local] Arguments parse_members : simpl never.

(** More fuel does not change a result. *)
Lemma parse_fuel_S n :
  (forall s x, parse_value n s = Some x -> parse_value (S n) s = Some x) /\
  (forall s x, parse_elements n s = Some x -> parse_elements (S n) s = Some x) /\
  (forall s o x, parse_members n s o = Some x -> parse_members (S n) s o = Some x).
Proof.
  induction n as [|n (IHv & IHe & IHm)]; [done|].
  split; [|split].
  - intros s x. rewrite (parse_value_S (S n)), (parse_value_S n).
    destruct (skip_ws s) as [|c r]; [done|].
    repeat (case_match; try done).
    + destruct (parse_elements n r) as [[vs r'']|] eqn:He; [|done].
      by rewrite (IHe _ _ He).
    + destruct (parse_members n r []) as [[ms r'']|] eqn:Hm; [|done].
      by rewrite (IHm _ _ _ Hm).
  - intros s x. rewrite (parse_elements_S (S n)), (parse_elements_S n).
    destruct (parse_value n s) as [[v r]|] eqn:Hv; [|done].
    rewrite (IHv _ _ Hv). simpl.
    repeat (case_match; try done).
    destruct (parse_elements n _) as [[vs r'']|] eqn:He; [|done].
    by rewrite (IHe _ _ He).
  - intros s o x. rewrite (parse_members_S (S n)), (parse_members_S n).
    repeat (case_match; try done).
    destruct (parse_string_body _) as [[k r1]|]; [|done]. simpl.
    repeat (case_match; try done).
    destruct (parse_value n _) as [[v r3]|] eqn:Hv; [|done].
    rewrite (IHv _ _ Hv). simpl.
    repeat (case_match; try done). apply IHm.
Qed.

Lemma parse_value_fuel_le n m s x :
  (n <= m)%nat -> parse_value n s = Some x -> parse_value m s = Some x.
Proof.
  induction 1 as [|m _ IH]; [done|]. intros H.
  by apply (proj1 (parse_fuel_S m)), IH.
Qed.

Lemma parse_elements_fuel_le n m s x :
  (n <= m)%nat -> parse_elements n s = Some x -> parse_elements m s = Some x.
Proof.
  induction 1 as [|m _ IH]; [done|]. intros H.
  by apply (proj1 (proj2 (parse_fuel_S m))), IH.
Qed.

Lemma parse_members_fuel_le n m s o x :
  (n <= m)%nat -> parse_members n s o = Some x -> parse_members m s o = Some x.
Proof.
  induction 1 as [|m _ IH]; [done|]. intros H.
  by apply (proj2 (proj2 (parse_fuel_S m))), IH.
Qed.

(** What the parts of the parser leave is shorter than what they get. *)
Lemma skip_ws_length s : (length (skip_ws s) <= length s)%nat.
Proof.
  induction s as [|c s IH]; simpl; [done|]. destruct (is_ws c); simpl; lia.
Qed.

Lemma skip_ws_cons_length s c r :
  skip_ws s = c :: r -> (S (length r) <= length s)%nat.
Proof. intros H. pose proof (skip_ws_length s) as Hl. rewrite H in Hl. done. Qed.

Lemma strip_prefix_length lit : forall s r,
  strip_prefix lit s = Some r -> (length r <= length s)%nat.
Proof.
  induction lit as [|a lit IH]; intros s r; simpl.
  - by intros [= ->].
  - destruct s as [|c s]; [done|]. destruct (a =? c); [|done].
    intros H%IH. simpl. lia.
Qed.

Lemma parse_string_body_length_upto n : forall s str r,
  (length s <= n)%nat ->
  parse_string_body s = Some (str, r) -> (S (length r) <= length s)%nat.
Proof.
  induction n as [|n IH]; intros s str r Hn.
  { destruct s; [done|simpl in Hn; lia]. }
  destruct s as [|c s]; [done|]. simpl in Hn. cbn [parse_string_body].
  destruct (c =? 34); [intros [= <- <-]; simpl; lia|].
  destruct (c =? 92).
  - destruct s as [|e s]; [done|]. simpl in Hn.
    destruct (e =? 117).
    + destruct s as [|h1 [|h2 [|h3 [|h4 s]]]]; try done. simpl in Hn.
      destruct (hex4 h1 h2 h3 h4); [|done]. simpl.
      destruct (parse_string_body s) as [[str' r']|] eqn:Hs; [|done].
      intros [= <- <-]. apply IH in Hs; [|lia]. simpl. lia.
    + destruct (unescape e); [|done]. simpl.
      destruct (parse_string_body s) as [[str' r']|] eqn:Hs; [|done].
      intros [= <- <-]. apply IH in Hs; [|lia]. simpl. lia.
  - destruct (c <? 32); [done|].
    destruct (parse_string_body s) as [[str' r']|] eqn:Hs; [|done].
    intros [= <- <-]. apply IH in Hs; [|lia]. simpl. lia.
Qed.

Lemma parse_string_body_length s str r :
  parse_string_body s = Some (str, r) -> (S (length r) <= length s)%nat.
Proof. by apply (parse_string_body_length_upto (length s)). Qed.

Lemma scan_number_length s literal r :
  scan_number s = Some (literal, r) -> (S (length r) <= length s)%nat.
Proof.
  intros [-> Hn]%scan_number_sound.
  destruct (number_head _ Hn) as (c & t & -> & _).
  rewrite length_app. simpl. lia.
Qed.

(** A result is obtained with no more fuel than the characters read. *)
Lemma parse_fuel_bound n :
  (forall s v r, parse_value n s = Some (v, r) ->
     exists k, (k + length r <= length s)%nat /\ parse_value k s = Some (v, r)) /\
  (forall s vs r, parse_elements n s = Some (vs, r) ->
     exists k, (k + length r <= length s)%nat /\
               parse_elements k s = Some (vs, r)) /\
  (forall s o ms r, parse_members n s o = Some (ms, r) ->
     exists k, (k + length r <= length s)%nat /\
               parse_members k s o = Some (ms, r)).
Proof.
  induction n as [|n (IHv & IHe & IHm)]; [done|].
  split; [|split].
  - intros s v r. rewrite parse_value_S.
    destruct (skip_ws s) as [|c r0] eqn:Hs; [done|].
    apply skip_ws_cons_length in Hs as Hlen.
    destruct (c =? 110) eqn:H110.
    { destruct (strip_prefix _ r0) as [r'|] eqn:Hp; [|done]. intros [= <- <-].
      pose proof (strip_prefix_length _ _ _ Hp) as Hl. exists 1%nat. split; [lia|].
      by rewrite parse_value_S, Hs, H110, Hp. }
    destruct (c =? 116) eqn:H116.
    { destruct (strip_prefix _ r0) as [r'|] eqn:Hp; [|done]. intros [= <- <-].
      pose proof (strip_prefix_length _ _ _ Hp) as Hl. exists 1%nat. split; [lia|].
      by rewrite parse_value_S, Hs, H110, H116, Hp. }
    destruct (c =? 102) eqn:H102.
    { destruct (strip_prefix _ r0) as [r'|] eqn:Hp; [|done]. intros [= <- <-].
      pose proof (strip_prefix_length _ _ _ Hp) as Hl. exists 1%nat. split; [lia|].
      by rewrite parse_value_S, Hs, H110, H116, H102, Hp. }
    destruct (c =? 34) eqn:H34.
    { destruct (parse_string_body r0) as [[str r']|] eqn:Hp; [|done].
      intros [= <- <-]. apply parse_string_body_length in Hp as Hl.
      exists 1%nat. split; [lia|].
      by rewrite parse_value_S, Hs, H110, H116, H102, H34, Hp. }
    destruct (c =? 91) eqn:H91.
    { destruct (skip_ws r0) as [|d r'] eqn:Hs0; [done|].
      apply skip_ws_cons_length in Hs0 as Hlen0.
      destruct (d =? 93) eqn:H93.
      - intros [= <- <-]. exists 1%nat. split; [lia|].
        by rewrite parse_value_S, Hs, H110, H116, H102, H34, H91, Hs0, H93.
      - destruct (parse_elements n r0) as [[vs r'']|] eqn:He; [|done].
        intros [= <- <-]. destruct (IHe _ _ _ He) as (k & Hk & Hpk).
        exists (S k). split; [lia|].
        by rewrite parse_value_S, Hs, H110, H116, H102, H34, H91, Hs0, H93, Hpk. }
    destruct (c =? 123) eqn:H123.
    { destruct (skip_ws r0) as [|d r'] eqn:Hs0; [done|].
      apply skip_ws_cons_length in Hs0 as Hlen0.
      destruct (d =? 125) eqn:H125.
      - intros [= <- <-]. exists 1%nat. split; [lia|].
        by rewrite parse_value_S, Hs, H110, H116, H102, H34, H91, H123, Hs0, H125.
      - destruct (parse_members n r0 []) as [[ms r'']|] eqn:Hm; [|done].
        intros [= <- <-]. destruct (IHm _ _ _ _ Hm) as (k & Hk & Hpk).
        exists (S k). split; [lia|].
        by rewrite parse_value_S, Hs, H110, H116, H102, H34, H91, H123, Hs0,
          H125, Hpk. }
    destruct (scan_number (c :: r0)) as [[literal r']|] eqn:Hp; [|done].
    intros [= <- <-]. apply scan_number_length in Hp as Hl. simpl in Hl.
    exists 1%nat. split; [lia|].
    by rewrite parse_value_S, Hs, H110, H116, H102, H34, H91, H123, Hp.
  - intros s vs r. rewrite parse_elements_S.
    destruct (parse_value n s) as [[v r1]|] eqn:Hv; [|done]. simpl.
    destruct (IHv _ _ _ Hv) as (k1 & Hk1 & Hp1).
    destruct (skip_ws r1) as [|d r'] eqn:Hs; [done|].
    apply skip_ws_cons_length in Hs as Hlen.
    destruct (d =? 44) eqn:H44.
    + destruct (parse_elements n r') as [[vs' r'']|] eqn:He; [|done].
      intros [= <- <-]. destruct (IHe _ _ _ He) as (k2 & Hk2 & Hp2).
      exists (S (k1 `max` k2)). split; [lia|].
      rewrite parse_elements_S.
      rewrite (parse_value_fuel_le k1 (k1 `max` k2) _ _ ltac:(lia) Hp1). simpl.
      rewrite Hs, H44.
      by rewrite (parse_elements_fuel_le k2 (k1 `max` k2) _ _ ltac:(lia) Hp2).
    + destruct (d =? 93) eqn:H93; [|done]. intros [= <- <-].
      exists (S k1). split; [lia|].
      by rewrite parse_elements_S, Hp1; simpl; rewrite Hs, H44, H93.
  - intros s o ms r. rewrite parse_members_S.
    destruct (skip_ws s) as [|q r0] eqn:Hs; [done|].
    apply skip_ws_cons_length in Hs as Hlen.
    destruct (q =? 34) eqn:H34; [|done].
    destruct (parse_string_body r0) as [[k r1]|] eqn:Hk; [|done]. simpl.
    apply parse_string_body_length in Hk as Hlk.
    destruct (skip_ws r1) as [|d r2] eqn:Hs1; [done|].
    apply skip_ws_cons_length in Hs1 as Hlen1.
    destruct (d =? 58) eqn:H58; [|done].
    destruct (parse_value n r2) as [[v r3]|] eqn:Hv; [|done]. simpl.
    destruct (IHv _ _ _ Hv) as (k1 & Hk1 & Hp1).
    destruct (skip_ws r3) as [|e r4] eqn:Hs3; [done|].
    apply skip_ws_cons_length in Hs3 as Hlen3.
    destruct (e =? 44) eqn:H44.
    + intros Hm. destruct (IHm _ _ _ _ Hm) as (k2 & Hk2 & Hp2).
      exists (S (k1 `max` k2)). split; [lia|].
      rewrite parse_members_S, Hs, H34, Hk. simpl. rewrite Hs1, H58.
      rewrite (parse_value_fuel_le k1 (k1 `max` k2) _ _ ltac:(lia) Hp1). simpl.
      rewrite Hs3, H44.
      by apply (parse_members_fuel_le k2); [lia|].
    + destruct (e =? 125) eqn:H125; [|done]. intros [= <- <-].
      exists (S k1). split; [lia|].
      rewrite parse_members_S, Hs, H34, Hk. simpl. rewrite Hs1, H58, Hp1.
      simpl. by rewrite Hs3, H44, H125.
Qed.

(** The fuel [parse] gives is enough: a result that some amount of fuel
    produces is produced with the fuel of [parse]. *)
Lemma parse_fuel_enough n text v r :
  parse_value n text = Some (v, r) ->
  parse_value (S (length text)) text = Some (v, r).
Proof.
  intros H. destruct (proj1 (parse_fuel_bound n) _ _ _ H) as (k & Hk & Hp).
  apply (parse_value_fuel_le k); [lia|done].
Qed.

Lemma parse_any_fuel n text v r :
  parse_value n text = Some (v, r) -> skip_ws r = [] -> parse text = Some v.
Proof.
  intros H Hr. unfold parse. rewrite (parse_fuel_enough _ _ _ _ H). simpl.
  by rewrite Hr.
Qed.

(** No text that starts with "Error: " is JSON. *)
Lemma parse_error_text message : parse (js "Error: " ++ message) = None.
Proof.
  unfold parse.
  change (js "Error: " ++ message) with (69%N :: (js "rror: " ++ message)).
  by rewrite parse_value_S, skip_ws_head.
Qed.

End RefFacts.

(** * The properties at the sample sessions *)

Section Samples.
Import Scenario.
#[local] Existing Instance Ref.platform.

Lemma settle_success_sample :
  let st := state (typed ok_url) in
  let st' := handleFetch_settle ok_closure (Fulfilled ok_response) 1000
               (js "10:00:00") (handleFetch_start st).1 in
  history st' = history st ++ [ok_record 1000] /\
  length (history st') = 1%nat /\
  status st' = success /\
  response st' = pretty_a1 /\
  currentRequestId st' = Some 1000.
Proof.
  apply (settle_success_from_captured_history (P := Ref.platform)
           (state (typed ok_url)) (handleFetch_start (state (typed ok_url))).1
           (handleFetch_start (state (typed ok_url))).1
           ok_closure ok_response body_a1
           (Ref.Object [(js "a", Ref.Number (js "1"))]) 1000 (js "10:00:00"));
    vm_compute; reflexivity.
Defined.

Lemma settle_failure_sample :
  let st := state (typed fail_url) in
  let c := {| c_url := fail_url; c_history := [] |} in
  let st' := handleFetch_settle c (Rejected timeout) 2000 (js "10:00:01")
               (handleFetch_start st).1 in
  history st' =
    history st ++ [ApiRequest.mk 2000 fail_url (js "Error: timeout") req_error
                     (js "10:00:01")] /\
  length (history st') = 1%nat /\
  status st' = error /\
  response st' = js "Error: timeout".
Proof.
  apply (settle_failure_from_captured_history
           (state (typed fail_url)) (handleFetch_start (state (typed fail_url))).1
           (handleFetch_start (state (typed fail_url))).1
           {| c_url := fail_url; c_history := [] |} (Rejected timeout) timeout
           2000 (js "10:00:01"));
    [vm_compute; reflexivity|constructor].
Defined.

(** C3, as stated, fails: a 404 response with a JSON body is recorded
    as a success. *)
Lemma not_found_with_json_body_is_success :
  let st' := handleFetch_settle ok_closure (Fulfilled not_found_response) 1000
               (js "10:00:00") (handleFetch_start (state (typed ok_url))).1 in
  Response_ok not_found_response = false /\
  status st' = success /\
  status st' <> error /\
  history st' = [ok_record 1000].
Proof. vm_compute. repeat split. discriminate. Qed.

Lemma non_ok_response_sample :
  let st' := handleFetch_settle ok_closure (Fulfilled not_found_response) 1000
               (js "10:00:00") (handleFetch_start (state (typed ok_url))).1 in
  status st' = success /\
  (ApiRequest.status <$> list.last (history st')) = Some req_success.
Proof.
  pose proof (non_ok_response_outcome_follows_body ok_closure not_found_response
                body_a1 1000 (js "10:00:00")
                (handleFetch_start (state (typed ok_url))).1) as H.
  vm_compute in H |- *. apply H; reflexivity.
Defined.

Lemma submit_invalid_url_sample :
  handleFetch_start (state (typed bad_url)) = (state (typed bad_url), None) /\
  submit (typed bad_url) = typed bad_url.
Proof.
  destruct (submit_invalid_url_is_noop (typed bad_url)) as (H1 & H2 & _).
  - right. vm_compute. reflexivity.
  - split; assumption.
Defined.

(** C5, as stated, fails: after [overlapping] two calls are in flight,
    and before its last click a call is suspended while the submit
    control is enabled. *)
Lemma two_calls_in_flight :
  (exists app, run initial (take 5 overlapping) = Some app /\
               length (inflight app) = 1%nat /\
               status (state app) = success /\
               can_submit app = true) /\
  (exists app, run initial overlapping = Some app /\
               length (inflight app) = 2%nat).
Proof. split; eexists; vm_compute; repeat split. Qed.

Lemma single_flight_sample :
  exists app, run initial (take 4 two_requests) = Some app /\
    (status (state app) = loading -> can_submit app = false) /\
    (inflight app <> [] -> status (state app) = loading) /\
    (inflight app <> [] -> can_submit app = false) /\
    (length (inflight app) <= 1)%nat.
Proof.
  destruct (run initial (take 4 two_requests)) as [app|] eqn:Hrun;
    [|vm_compute in Hrun; discriminate].
  exists app. split; [reflexivity|].
  apply (single_flight_while_loading (take 4 two_requests) app Hrun).
  vm_compute; reflexivity.
Defined.


Lemma formatResponse_sample :
  formatResponse (formatResponse body_a1 success) success
  = formatResponse body_a1 success.
Proof.
  exact (@formatResponse_idempotent Ref.platform RefFacts.platform_laws
           body_a1 success).
Defined.

Example formatResponse_pretty :
  formatResponse body_a1 success = pretty_a1 /\
  formatResponse pretty_a1 success = pretty_a1 /\
  formatResponse bad_url error = bad_url /\
  formatResponse body_a1 loading = body_a1.
Proof. vm_compute. done. Qed.

(** The scenarios of the specification: a rejected url, and two
    successful submissions followed by Clear. *)
Example invalid_url_scenario :
  run initial [Change bad_url; KeyDown (js "Enter")] = Some (typed bad_url).
Proof. reflexivity. Qed.

Example clear_scenario :
  exists app,
    run initial
      [ Change ok_url; ClickFetch;
        Settle 0 (Fulfilled ok_response) 1000 (js "10:00:00");
        ClickFetch;
        Settle 0 (Fulfilled ok_response) 2000 (js "10:00:01");
        ClickClear ] = Some app /\
    history (state app) = [] /\ status (state app) = idle /\
    currentRequestId (state app) = None /\ url (state app) = ok_url.
Proof. eexists. vm_compute. done. Qed.

End Samples.

(** C9, as stated, fails: with a budget below 3 the three dots alone
    exceed it. *)
Lemma truncateUrl_exceeds_small_budget :
  truncateUrl (js "abcdef") 2 = js "..." /\
  ~ str_length (truncateUrl (js "abcdef") 2) <= 2.
Proof. split; [reflexivity|]. vm_compute. intros H; by apply H. Qed.

Lemma truncateUrl_sample :
  (str_length (truncateUrl Sessions.long_url 35) <= 35 /\
   exists p, p `prefix_of` Sessions.long_url /\
     str_length p = 32 /\
     truncateUrl Sessions.long_url 35 = p ++ js "...") /\
  (truncateUrl (js "abcdef") 2 = js "..." /\
   2 < str_length (truncateUrl (js "abcdef") 2)).
Proof.
  split.
  - destruct (truncateUrl_within_budget Sessions.long_url 35)
      as ((p & Hp & Hlen & Heq) & Hfit & _).
    split; [apply Hfit; lia|]. exists p. split; [exact Hp|].
    split; [exact Hlen|exact Heq].
  - destruct (truncateUrl_within_budget (js "abcdef") 2) as (_ & _ & Hsmall).
    apply Hsmall; [lia|vm_compute; reflexivity].
Defined.

(** * The session properties at the sample sessions *)

Section SessionSamples.
Import Scenario Sessions.
#[local] Existing Instance Ref.platform.

Example sessions_are_reached :
  run initial (take 3 two_requests) = Some answered /\
  run initial (take 4 two_requests) = Some waiting.
Proof. split; vm_compute; reflexivity. Qed.

(** C1, at the failing input. After [two_pending_one_answered] the
    history holds the records 1000 and 2000 and the call started last is
    pending, with the history it captured: the record 1000.  The call
    resolves with a JSON body, and sets the history to the captured
    history followed by its record: the record 2000 is gone, the history
    has two records as before, and it is not the history that was on
    display with one record appended. *)
Theorem overlapping_success_drops_record :
  exists app app',
    run initial two_pending_one_answered = Some app /\
    dispatch app (Settle 0 (Fulfilled ok_response) 3000 (js "10:00:02"))
      = Some app' /\
    ApiRequest.id <$> history (state app) = [1000; 2000] /\
    ApiRequest.id <$> history (state app') = [1000; 3000] /\
    status (state app') = success /\
    length (history (state app')) = length (history (state app)) /\
    ~ exists record, history (state app') = history (state app) ++ [record].
Proof.
  eexists. eexists. split; [vm_compute; reflexivity|].
  split; [vm_compute; reflexivity|]. split; [reflexivity|].
  split; [reflexivity|]. split; [reflexivity|]. split; [reflexivity|].
  intros [record Happ]. apply (f_equal length) in Happ.
  rewrite length_app in Happ. vm_compute in Happ. discriminate Happ.
Qed.

(** C2, at the failing input. After [cleared_while_pending] the history
    is empty and a call is pending that captured the record 1000.  The
    call is rejected, and sets the history to the captured history
    followed by its error record: the history on display goes from no
    record to two. *)
Theorem cleared_failure_restores_records :
  exists app app',
    run initial cleared_while_pending = Some app /\
    dispatch app (Settle 0 (Rejected timeout) 2000 (js "10:00:01"))
      = Some app' /\
    history (state app) = [] /\
    history (state app')
      = [ok_record 1000;
         ApiRequest.mk 2000 ok_url (js "Error: timeout") req_error
           (js "10:00:01")] /\
    status (state app') = error /\
    length (history (state app')) = 2%nat /\
    length (history (state app')) <> S (length (history (state app))).
Proof.
  eexists. eexists. split; [vm_compute; reflexivity|].
  split; [vm_compute; reflexivity|]. split; [reflexivity|].
  split; [reflexivity|]. split; [reflexivity|]. split; [reflexivity|].
  vm_compute. discriminate.
Qed.

(** C6, as stated, fails.  Two records created within one millisecond
    have the same id.  And a record can leave the history without a
    click on Clear: in [two_pending_one_answered] followed by the answer
    to the last call, three records are created, 1000, 2000 and 3000,
    and the history ends with 1000 and 3000. *)
Lemma ids_repeat_and_record_dropped :
  (exists app, run initial same_tick = Some app /\
     ApiRequest.id <$> history (state app) = [1000; 1000] /\
     ~ NoDup (ApiRequest.id <$> history (state app)) /\
     ~ StronglySorted Z.lt (ApiRequest.id <$> history (state app))) /\
  (let evs := two_pending_one_answered
                ++ [Settle 0 (Fulfilled ok_response) 3000 (js "10:00:02")] in
   exists app, run initial evs = Some app /\
     (ClickClear ∉ evs) /\
     ApiRequest.id <$> records_created initial evs = [1000; 2000; 3000] /\
     ApiRequest.id <$> history (state app) = [1000; 3000] /\
     history (state app) <> records_created initial evs).
Proof.
  split.
  - eexists. split; [vm_compute; reflexivity|]. split; [reflexivity|].
    change (ApiRequest.id <$> _) with [1000; 1000]. split.
    + intros Hnd. apply NoDup_cons in Hnd as [Hnot _]. apply Hnot. by left.
    + intros Hs. apply StronglySorted_inv in Hs as [_ Hx].
      apply Forall_cons in Hx as [Hlt _]. lia.
  - intros evs. eexists. split; [vm_compute; reflexivity|]. split.
    { intros Hin. vm_compute in Hin.
      repeat (apply elem_of_cons in Hin as [Hin|Hin]; [discriminate Hin|]).
      by apply elem_of_nil in Hin. }
    split; [reflexivity|]. split; [reflexivity|].
    intros Heq. apply (f_equal length) in Heq. vm_compute in Heq.
    discriminate Heq.
Qed.

Lemma history_ids_sample :
  exists app,
    run answered second_request = Some app /\
    StronglySorted Z.lt (ApiRequest.id <$> history (state app)) /\
    NoDup (ApiRequest.id <$> history (state app)) /\
    history (state app)
      `sublist_of` records_created initial (take 3 two_requests ++ second_request) /\
    history (state app)
    = history (state answered) ++ records_created answered second_request.
Proof.
  assert (Hrun1 : run initial (take 3 two_requests) = Some answered)
    by (vm_compute; reflexivity).
  destruct (run answered second_request) as [app|] eqn:Hrun2;
    [|vm_compute in Hrun2; discriminate].
  exists app. split; [reflexivity|].
  destruct (history_ids_increasing (take 3 two_requests) second_request
              answered app Hrun1 Hrun2) as (Hids & Hsub & Hgrow).
  destruct Hids as [Hsorted Hnodup].
  { vm_compute. repeat constructor. }
  split; [exact Hsorted|]. split; [exact Hnodup|]. split; [exact Hsub|].
  apply Hgrow; [vm_compute; reflexivity|].
  intros Hin.
  repeat (apply elem_of_cons in Hin as [Hin|Hin]; [discriminate Hin|]).
  by apply elem_of_nil in Hin.
Defined.

Lemma recorded_urls_sample :
  exists app, run initial two_requests = Some app /\
    Forall (fun r => ApiRequest.url r <> [] /\ isValidUrl (ApiRequest.url r) = true)
      (history (state app)) /\
    Forall (fun c => c_url c <> [] /\ isValidUrl (c_url c) = true) (inflight app).
Proof.
  destruct (run initial two_requests) as [app|] eqn:Hrun;
    [|vm_compute in Hrun; discriminate].
  exists app. split; [reflexivity|].
  exact (recorded_urls_are_valid two_requests app Hrun).
Defined.

Lemma recorded_texts_sample :
  exists app, run initial two_requests = Some app /\
    Forall (fun r =>
              match ApiRequest.status r with
              | req_success =>
                  exists text data, JSON_parse text = Some data /\
                    ApiRequest.response r = JSON_stringify data 2
              | req_error =>
                  exists message, ApiRequest.response r = js "Error: " ++ message
              end)
      (history (state app)).
Proof.
  destruct (run initial two_requests) as [app|] eqn:Hrun;
    [|vm_compute in Hrun; discriminate].
  exists app. split; [reflexivity|].
  exact (recorded_texts_fit_outcome two_requests app Hrun).
Defined.

Lemma display_shows_response_sample :
  exists app, run initial two_requests = Some app /\
    ResponseDisplay (response (state app)) (status (state app))
    = response (state app).
Proof.
  destruct (run initial two_requests) as [app|] eqn:Hrun;
    [|vm_compute in Hrun; discriminate].
  exists app. split; [reflexivity|].
  exact (@display_shows_response Ref.platform RefFacts.platform_laws
           two_requests app RefFacts.parse_error_text Hrun).
Defined.

Lemma displayed_text_sample :
  exists app, run initial two_requests = Some app /\
    match status (state app) with
    | idle =>
        response (state app)
          = js "No data yet. Enter an API endpoint and click Fetch." \/
        response (state app)
          = js "History cleared. Enter an API endpoint and click Fetch."
    | loading => response (state app) = js "Fetching data..."
    | success =>
        exists text data, JSON_parse text = Some data /\
          response (state app) = JSON_stringify data 2
    | error => exists message, response (state app) = js "Error: " ++ message
    end.
Proof.
  destruct (run initial two_requests) as [app|] eqn:Hrun;
    [|vm_compute in Hrun; discriminate].
  exists app. split; [reflexivity|].
  exact (displayed_text_fits_status two_requests app Hrun).
Defined.

Lemma selection_sample :
  exists app, run initial two_requests = Some app /\
    (currentRequestId (state app) = None \/
     exists r, r ∈ history (state app) /\
               currentRequestId (state app) = Some (ApiRequest.id r)) /\
    (is_Some (currentRequestId (state app)) ->
     exists i item,
       items (HistoryPanel (history (state app)) (currentRequestId (state app))) !! i
         = Some item /\
       item_active item = true).
Proof.
  destruct (run initial two_requests) as [app|] eqn:Hrun;
    [|vm_compute in Hrun; discriminate].
  exists app. split; [reflexivity|].
  exact (selection_refers_to_history two_requests app Hrun).
Defined.

Lemma loading_sample :
  run initial (take 4 two_requests) = Some waiting /\ inflight waiting <> [].
Proof.
  assert (Hrun : run initial (take 4 two_requests) = Some waiting)
    by (vm_compute; reflexivity).
  split; [exact Hrun|].
  apply (loading_has_pending_call (take 4 two_requests) waiting Hrun).
  reflexivity.
Defined.

Lemma settle_appends_sample :
  exists app' record,
    dispatch waiting (Settle 0 (Rejected timeout) 2000 (js "10:00:01"))
      = Some app' /\
    history (state app') = history (state waiting) ++ [record] /\
    length (history (state app')) = S (length (history (state waiting))) /\
    ApiRequest.url record = url (state waiting) /\
    ApiRequest.id record = 2000 /\
    url (state app') = url (state waiting) /\
    inflight app' = [].
Proof.
  assert (Hrun : run initial (take 4 two_requests) = Some waiting)
    by (vm_compute; reflexivity).
  assert (Hund : undisturbed initial (take 4 two_requests) = true)
    by (vm_compute; reflexivity).
  destruct (dispatch waiting (Settle 0 (Rejected timeout) 2000 (js "10:00:01")))
    as [app'|] eqn:Hd; [|vm_compute in Hd; discriminate].
  exists app'.
  destruct (settle_appends_to_displayed_history (take 4 two_requests) waiting
              app' 0 (Rejected timeout) 2000 (js "10:00:01") Hrun Hund Hd)
    as (record & H).
  exists record. split; [reflexivity|exact H].
Defined.

Lemma history_within_sample :
  exists app, run initial two_requests = Some app /\
    history (state app) `sublist_of` records_created initial two_requests /\
    (length (history (state app)) <= length (clock_readings two_requests))%nat /\
    Forall (fun r => ApiRequest.id r ∈ clock_readings two_requests)
      (history (state app)).
Proof.
  destruct (run initial two_requests) as [app|] eqn:Hrun;
    [|vm_compute in Hrun; discriminate].
  exists app. split; [reflexivity|].
  exact (history_within_created_records two_requests app Hrun).
Defined.

Lemma fetch_click_sample :
  exists app',
    dispatch (typed ok_url) ClickFetch = Some app' /\
    isValidUrl (url (state (typed ok_url))) = true /\
    status (state app') = loading /\
    response (state app') = js "Fetching data..." /\
    inflight app' = inflight (typed ok_url) ++
      [{| c_url := url (state (typed ok_url));
          c_history := history (state (typed ok_url)) |}].
Proof.
  destruct (dispatch (typed ok_url) ClickFetch) as [app'|] eqn:Hd;
    [|vm_compute in Hd; discriminate].
  exists app'. split; [reflexivity|].
  apply (fetch_click_starts_request (typed ok_url) app' Hd).
  intros H. vm_compute in H. discriminate H.
Defined.

Lemma clear_history_sample :
  exists app',
    dispatch answered ClickClear = Some app' /\
    history (state app') = [] /\
    currentRequestId (state app') = None /\
    status (state app') = idle /\
    response (state app')
      = js "History cleared. Enter an API endpoint and click Fetch." /\
    url (state app') = url (state answered) /\
    inflight app' = inflight answered /\
    dispatch app' ClickClear = None /\
    forall i, dispatch app' (ClickItem i) = None.
Proof.
  apply (clear_history_resets_session answered).
  intros H. vm_compute in H. discriminate H.
Defined.

Lemma pending_call_sample :
  exists app1 app2 record,
    dispatch waiting ClickClear = Some app1 /\
    history (state app1) = [] /\
    dispatch app1 (Settle 0 (Fulfilled ok_response) 2000 (js "10:00:01"))
      = Some app2 /\
    history (state app2) = history (state waiting) ++ [record] /\
    ApiRequest.id record = 2000 /\
    currentRequestId (state app2) = Some 2000.
Proof.
  apply (pending_call_restores_cleared_history (take 4 two_requests) waiting 0
           (Fulfilled ok_response) 2000 (js "10:00:01")).
  - vm_compute; reflexivity.
  - vm_compute; reflexivity.
  - eexists. reflexivity.
  - intros H. vm_compute in H. discriminate H.
Defined.

Lemma clicked_item_sample :
  exists app',
    dispatch answered (ClickItem 0) = Some app' /\
    (forall j r,
        history (state answered) !! j = Some r ->
        exists item,
          items (HistoryPanel (history (state app'))
                   (currentRequestId (state app'))) !! j = Some item /\
          item_onClick item = r /\
          (item_active item = true <->
           ApiRequest.id r = ApiRequest.id (ok_record 1000))) /\
    exists item,
      items (HistoryPanel (history (state app'))
               (currentRequestId (state app'))) !! 0%nat = Some item /\
      item_active item = true.
Proof.
  apply (clicked_item_is_active answered 0 (ok_record 1000)). reflexivity.
Defined.

Lemma settled_record_sample :
  exists app' item,
    dispatch waiting (Settle 0 (Rejected timeout) 2000 (js "10:00:01"))
      = Some app' /\
    length (items (HistoryPanel (history (state app'))
                     (currentRequestId (state app')))) = 2%nat /\
    items (HistoryPanel (history (state app'))
             (currentRequestId (state app'))) !! 1%nat = Some item /\
    item_active item = true /\
    ApiRequest.id (item_onClick item) = 2000 /\
    list.last (history (state app')) = Some (item_onClick item).
Proof.
  apply (settled_record_is_active waiting 0
           {| c_url := ok_url; c_history := [ok_record 1000] |}
           (Rejected timeout) 2000 (js "10:00:01")).
  reflexivity.
Defined.

Lemma selecting_new_record_sample :
  exists app1 app2,
    dispatch waiting (Settle 0 (Fulfilled ok_response) 2000 (js "10:00:01"))
      = Some app1 /\
    dispatch app1 (ClickItem 1) = Some app2 /\
    state app2 = setUrl ok_url (state app1) /\
    inflight app2 = inflight app1.
Proof.
  apply (selecting_new_record_replays_call waiting 0
           {| c_url := ok_url; c_history := [ok_record 1000] |}
           (Fulfilled ok_response) 2000 (js "10:00:01")).
  reflexivity.
Defined.

Lemma submit_valid_url_sample :
  exists app',
    dispatch (typed ok_url) ClickFetch = Some app' /\
    dispatch (typed ok_url) (KeyDown (js "Enter")) = Some app' /\
    status (state app') = loading /\
    response (state app') = js "Fetching data..." /\
    url (state app') = url (state (typed ok_url)) /\
    history (state app') = history (state (typed ok_url)) /\
    currentRequestId (state app') = currentRequestId (state (typed ok_url)) /\
    inflight app' = inflight (typed ok_url) ++
      [{| c_url := url (state (typed ok_url));
          c_history := history (state (typed ok_url)) |}] /\
    InputField (url (state app')) (App_disabled (state app'))
      = {| input_disabled := true; input_invalid := false;
           button_disabled := true; button_label := js "Loading..." |}.
Proof.
  destruct (new_URL (url (state (typed ok_url)))) as [u|] eqn:Hu;
    [|vm_compute in Hu; discriminate].
  apply (submit_valid_url_starts_request (typed ok_url) u).
  - intros H. vm_compute in H. discriminate H.
  - intros H. vm_compute in H. discriminate H.
  - exact Hu.
Defined.

Lemma item_url_sample :
  let h := [ApiRequest.mk 1000 long_url pretty_a1 req_success (js "10:00:00")] in
  exists item,
    items (HistoryPanel h None) !! 0%nat = Some item /\
    str_length (item_url item) <= 35 /\
    exists r, h !! 0%nat = Some r /\
      item_url item =
        if str_length (ApiRequest.url r) <=? 35 then ApiRequest.url r
        else take 32 (ApiRequest.url r) ++ js "...".
Proof.
  intros h.
  destruct (items (HistoryPanel h None) !! 0%nat) as [item|] eqn:Hi;
    [|vm_compute in Hi; discriminate].
  exists item. split; [reflexivity|].
  exact (item_url_within_35 h None 0 item Hi).
Defined.

End SessionSamples.

Lemma truncateUrl_length_sample :
  str_length (truncateUrl Sessions.long_url 35) = 35 /\
  truncateUrl Sessions.long_url 35 <> Sessions.long_url.
Proof.
  destruct (truncateUrl_length Sessions.long_url 35) as [Hlen Hneq].
  split; [exact Hlen|]. apply Hneq. split; [lia|vm_compute; reflexivity].
Defined.
